(** * Video description server: admission queue, scheduler and pipeline

    A shallow embedding of the queue-based version of the server
    (class [ProcessingQueue], [getVideoDescription], [cleanupTempFile] and
    the timeout middleware) together with the properties of its
    specification.

    Conventions of the embedding.
    - A JavaScript string is held as its UTF-8 bytes ([string]); its
      characters are UTF-16 code units, which [Str.units] lists, and its
      white space is the one of the language. Case folding is the ASCII
      one.
    - JavaScript numbers that occur here are integers ([Z]); the only
      fractional quantity, the file size in megabytes, is an exact
      rational ([Q]): dividing a byte count by 2^20 is exact in binary
      floating point, so the comparisons are the ones the code performs.
    - A promise is represented by the way it settles ([Settled]); a
      race against a timer adds the case where the timer wins.
    - The external collaborators (SQLite, Google Drive, Gemini, the file
      system calls that may throw) are oracles: the environment records
      say how each call answers.
    - The event loop is single threaded: a state changes only at an
      event, and every event handler runs to its next suspension point. *)

From Stdlib Require Import ZArith QArith DecimalString Ascii String.
From stdpp Require Import gmap strings list fin_maps.

Open Scope string_scope.
Open Scope Z_scope.

(** ** Strings *)

Module Str.

(** [s.includes(pat)] *)
Fixpoint includes (s pat : string) : bool :=
  String.prefix pat s ||
  match s with
  | EmptyString => false
  | String _ rest => includes rest pat
  end.

Definition lower_char (c : ascii) : ascii :=
  let n := nat_of_ascii c in
  if ((65 <=? n) && (n <=? 90))%nat then ascii_of_nat (n + 32) else c.

(** [s.toLowerCase()] *)
Fixpoint toLowerCase (s : string) : string :=
  match s with
  | EmptyString => EmptyString
  | String c rest => String (lower_char c) (toLowerCase rest)
  end.

Definition newline : ascii := ascii_of_nat 10.

(** The white space and line terminators of JavaScript, which [trim]
    and [parseInt] skip, by their UTF-8 bytes. One byte: U+0009 to
    U+000D and U+0020. *)
Definition white1 (a : ascii) : bool :=
  let a := nat_of_ascii a in
  (((9 <=? a) && (a <=? 13)) || (a =? 32))%nat.

(** Two bytes: U+00A0. *)
Definition white2 (a b : ascii) : bool :=
  let a := nat_of_ascii a in
  let b := nat_of_ascii b in
  ((a =? 194) && (b =? 160))%nat.

(** Three bytes: U+1680; U+2000 to U+200A, U+2028, U+2029 and U+202F;
    U+205F; U+3000; U+FEFF. *)
Definition white3 (a b c : ascii) : bool :=
  let a := nat_of_ascii a in
  let b := nat_of_ascii b in
  let c := nat_of_ascii c in
  (((a =? 225) && (b =? 154) && (c =? 128))
   || ((a =? 226) && (b =? 128)
       && (((128 <=? c) && (c <=? 138)) || (c =? 168) || (c =? 169) || (c =? 175)))
   || ((a =? 226) && (b =? 129) && (c =? 159))
   || ((a =? 227) && (b =? 128) && (c =? 128))
   || ((a =? 239) && (b =? 187) && (c =? 191)))%nat.

(** [s.trimStart()] *)
Fixpoint trimStart (s : string) : string :=
  match s with
  | String a rest =>
      if white1 a then trimStart rest
      else
        match rest with
        | String b rest =>
            if white2 a b then trimStart rest
            else
              match rest with
              | String c rest => if white3 a b c then trimStart rest else s
              | EmptyString => s
              end
        | EmptyString => s
        end
  | EmptyString => s
  end.

(** [s] is made of white space only. *)
Fixpoint blank (s : string) : bool :=
  match s with
  | String a rest =>
      if white1 a then blank rest
      else
        match rest with
        | String b rest =>
            if white2 a b then blank rest
            else
              match rest with
              | String c rest => if white3 a b c then blank rest else false
              | EmptyString => false
              end
        | EmptyString => false
        end
  | EmptyString => true
  end.

(** [s.trimEnd()]: [s] up to the first position from which only white
    space follows. *)
Fixpoint trimEnd (s : string) : string :=
  match s with
  | EmptyString => EmptyString
  | String c rest => if blank s then EmptyString else String c (trimEnd rest)
  end.

(** [s.trim()] *)
Definition trim (s : string) : string := trimEnd (trimStart s).

(** [s.replace(/FENCE\n?/g, '')] for a literal, non-empty [fence]: the
    matches are found from left to right and do not overlap. [skip]
    counts the characters of the current match still to be dropped. *)
Fixpoint strip_fence (fence : string) (skip : nat) (s : string) : string :=
  match s with
  | EmptyString => EmptyString
  | String c rest =>
      match skip with
      | S k => strip_fence fence k rest
      | O =>
          if String.prefix fence s then
            let n := String.length fence in
            let nl := match String.get n s with
                      | Some d => if Ascii.eqb d newline then 1%nat else 0%nat
                      | None => 0%nat
                      end in
            strip_fence fence (n - 1 + nl) rest
          else String c (strip_fence fence O rest)
      end
  end.

(** A string holds the UTF-8 bytes of a JavaScript string, whose
    characters are UTF-16 code units. [sequence c] is the number of
    bytes of the sequence that the byte [c] starts, and the number of
    code units it stands for: two, a surrogate pair, for a sequence of
    four bytes. A byte that starts no sequence counts as one unit. *)
Definition sequence (c : ascii) : nat * nat :=
  let b := nat_of_ascii c in
  (if b <? 192 then (1, 1)
   else if b <? 224 then (2, 1)
   else if b <? 240 then (3, 1)
   else if b <? 248 then (4, 2)
   else (1, 1))%nat.

Definition byte (c : ascii) : Z := Z.of_nat (nat_of_ascii c).

(** The six payload bits of the byte at position [i] of [s]. *)
Definition trail (i : nat) (s : string) : Z :=
  match String.get i s with
  | Some c => byte c mod 64
  | None => 0
  end.

(** The code point of the sequence made of [c] and the bytes that
    follow it in [rest]. *)
Definition code_point (c : ascii) (rest : string) : Z :=
  match fst (sequence c) with
  | 1%nat => byte c
  | 2%nat => (byte c mod 32) * 64 + trail 0 rest
  | 3%nat => (byte c mod 16) * 4096 + trail 0 rest * 64 + trail 1 rest
  | _ => (byte c mod 8) * 262144 + trail 0 rest * 4096
         + trail 1 rest * 64 + trail 2 rest
  end.

Definition high_surrogate (cp : Z) : Z := (55296 + (cp - 65536) / 1024) mod 65536.
Definition low_surrogate (cp : Z) : Z := 56320 + (cp - 65536) mod 1024.

Definition code_units (c : ascii) (rest : string) : list Z :=
  let cp := code_point c rest in
  match snd (sequence c) with
  | 2%nat => [high_surrogate cp; low_surrogate cp]
  | _ => [cp]
  end.

(** The UTF-16 code units of [s]; [skip] counts the bytes of the
    current sequence still to be passed. *)
Fixpoint units_from (skip : nat) (s : string) : list Z :=
  match s with
  | EmptyString => []
  | String c rest =>
      match skip with
      | S k => units_from k rest
      | O => code_units c rest ++ units_from (fst (sequence c) - 1) rest
      end
  end.

Definition units (s : string) : list Z := units_from 0 s.

(** [s.length] *)
Definition length (s : string) : nat := List.length (units s).

(** The three bytes of a code unit that stands alone. *)
Definition three_bytes (u : Z) : string :=
  String (ascii_of_nat (Z.to_nat (224 + u / 4096)))
    (String (ascii_of_nat (Z.to_nat (128 + (u / 64) mod 64)))
       (String (ascii_of_nat (Z.to_nat (128 + u mod 64))) EmptyString)).

(** The first [n] code units of [s]; [copy] counts the bytes of the
    current sequence still to be copied. When the cut falls inside a
    surrogate pair its first half is kept. *)
Fixpoint substring_from (n copy : nat) (s : string) : string :=
  match s with
  | EmptyString => EmptyString
  | String c rest =>
      match copy with
      | S k => String c (substring_from n k rest)
      | O =>
          if (snd (sequence c) <=? n)%nat
          then String c (substring_from (n - snd (sequence c))
                                        (fst (sequence c) - 1) rest)
          else
            match n with
            | O => EmptyString
            | S _ => three_bytes (high_surrogate (code_point c rest))
            end
      end
  end.

(** [s.substring(0, n)] *)
Definition substring0 (n : nat) (s : string) : string := substring_from n 0 s.

(** [x ? ... : ...] on a string: the empty string is the only falsy one. *)
Definition truthy (s : string) : bool :=
  match s with EmptyString => false | _ => true end.

Definition of_Z (z : Z) : string := NilZero.string_of_int (Z.to_int z).

Definition two_digits (z : Z) : string :=
  if z <? 10 then "0" ++ of_Z z else of_Z z.

(** [q.toFixed(2)] for a non-negative [q]: the nearest multiple of
    1/100, the larger one on a tie. *)
Definition toFixed2 (q : Q) : string :=
  let n := (200 * Qnum q + Zpos (Qden q)) / (2 * Zpos (Qden q)) in
  of_Z (n / 100) ++ "." ++ two_digits (n mod 100).

End Str.

(** ** JSON values and settled promises *)

#[warnings="-register-all"]
Inductive Json : Type :=
| JNull
| JBool (b : bool)
| JNum (n : Z)
| JStr (s : string)
| JArr (items : list Json)
| JObj (fields : list (string * Json)).

Definition field (name : string) (j : Json) : option Json :=
  match j with
  | JObj fields => snd <$> List.find (fun kv => String.eqb (fst kv) name) fields
  | _ => None
  end.

Inductive Settled (A : Type) : Type :=
| Resolved (value : A)
| Rejected (message : string).
Arguments Resolved {A} value.
Arguments Rejected {A} message.

(** ** The inference stage: [getVideoDescription] *)

Record ModelConfig := { name : string; maxSizeMB : Z }.

Definition modelConfigs : list ModelConfig :=
  [ {| name := "gemini-2.5-flash"; maxSizeMB := 50 |};
    {| name := "gemini-2.5-pro"; maxSizeMB := 30 |} ].

Record UsageMetadata := {
  promptTokenCount : option Z;
  candidatesTokenCount : option Z;
  totalTokenCount : option Z
}.

Record TokenUsage := {
  promptTokens : Z;
  candidatesTokens : Z;
  totalTokens : Z
}.

Record AnalysisResult := {
  description : Json;
  modelUsed : string;
  tokenUsage : TokenUsage
}.

(** How one tier answers [generateContent]: the call (raced against
    150 s) fails, or it answers but [response.text()] throws, or it
    answers with a text and usage metadata. *)
Inductive ModelAnswer : Type :=
| GenerateFailed (message : string)
| TextFailed (message : string)
| Responded (text : string) (usage : option UsageMetadata).

Record GeminiEnv := {
  genAI : bool;
  statSync : Settled Z;
  readFileSync : Settled unit;
  generateContent : string -> ModelAnswer;
  toISOString : string
}.

Definition fileSizeInMB (size : Z) : Q := (inject_Z size / inject_Z (1024 * 1024))%Q.

Definition Qgtb (a b : Q) : bool :=
  match (a ?= b)%Q with Gt => true | _ => false end.

Definition availableModels (mb : Q) : list ModelConfig :=
  List.filter (fun config => Qle_bool mb (inject_Z (maxSizeMB config))) modelConfigs.

(** The two size checks that precede the read of the file. *)
Inductive SizeGate : Type :=
| OverCeiling
| NoEligibleModel
| Eligible (models : list ModelConfig).

Definition size_gate (size : Z) : SizeGate :=
  let mb := fileSizeInMB size in
  if Qgtb mb (inject_Z 50) then OverCeiling
  else
    let available := availableModels mb in
    if (length available =? 0)%nat then NoEligibleModel
    else Eligible available.

(** [usageMetadata?.field || 0] *)
Definition count_or_0 (usage : option UsageMetadata)
    (get : UsageMetadata -> option Z) : Z :=
  match usage with
  | Some u => default 0 (get u)
  | None => 0
  end.

Definition clean_response (text : string) : string :=
  Str.trim (Str.strip_fence "```" 0 (Str.strip_fence "```json" 0 (Str.trim text))).

(** ** The data of one pipeline run *)

(** A row of the table [videos]. *)
Record Row := {
  drive_id : string;
  stored_description : string;
  token_usage : option string
}.

(** What a run does to the outside world, in order. [Send] is a
    response written on a response object: [res.status(..).json(..)]. *)
Inductive Effect : Type :=
| CallGetVideoFromDB (videoId : string)
| CallDownload (videoId : string)
| CallDescribe (filePath : string)
| CallInsert (videoId : string) (description : Json) (usage : TokenUsage)
| CallCleanup (filePath : string)
| Send (res : nat) (status : Z) (body : Json).

(** [downloadVideoFromDrive] raced against 60 s. When the timer wins
    the download is not cancelled: [partial] is the file its stream
    goes on writing, if it got that far. A failed download has removed
    its own file. *)
Inductive Download : Type :=
| Downloaded (filePath : string)
| DownloadFailed (message : string)
| DownloadTimedOut (partial : option string).

Record PipelineEnv := {
  getVideoFromDB : Settled (option Row);
  downloadVideoFromDrive : Download;
  gemini : GeminiEnv;
  (** the timer of [ANALYSIS_TIMEOUT - 60000] wins against the inference *)
  analysis_timer_first : bool;
  insertVideo : Settled unit;
  (** [fs.unlinkSync] throws in [cleanupTempFile] *)
  unlinkSync_throws : bool;
  (** the timer of [ANALYSIS_TIMEOUT] wins against [performVideoAnalysis] *)
  processing_timer_first : bool
}.

(** The state of [performVideoAnalysis] when its [try] block is left. *)
Record Attempt := {
  outcome : Settled AnalysisResult;
  filePath : option string;
  files : gset string;
  trace : list Effect
}.

Record Processed := {
  settled : Settled unit;
  disk_after : gset string;
  effects : list Effect
}.

(** ** The state of the server *)

Definition MAX_CONCURRENT_REQUESTS : Z := 2.
(** [4.5 * 60 * 1000] *)
Definition HTTP_TIMEOUT : Z := 270000.
Definition ANALYSIS_TIMEOUT : Z := 3 * 60 * 1000.
Definition maxRetries : Z := 2.

(** An entry of [this.queue]; [timeout] is the handle of its deadline timer. *)
Module Item.
Record t := { videoId : string; res : nat; timestamp : Z; timeout : nat }.
End Item.

(** The callbacks given to [setTimeout]. *)
Inductive Callback : Type :=
| Deadline (videoId : string) (res : nat)
| Retry (videoId : string)
| Continue.

Record Timer := { callback : Callback; delay : Z }.

(** A call of [processQueue] suspended at [await this.processVideo(videoId, res)]. *)
Record Run := { run_videoId : string; run_res : nat }.

Record State := {
  queue : list Item.t;
  processingIds : gset string;
  retryAttempts : gmap string Z;
  currentProcessing : Z;
  timers : gmap nat Timer;
  nextTimer : nat;
  running : list Run;
  log : list Effect;
  disk : gset string
}.

(** What the event loop can run next, as far as the processing of a
    video goes: a request on [POST /], a tick of the interval, a timer,
    a run that settles, and the timeout of the socket of a response. The
    other routes and the handlers for unknown routes and for errors of
    the middleware do not touch the queue; they are not part of the
    model. *)
Inductive Event : Type :=
| Post (videoId : string) (res : nat) (now : Z)
| Tick
| Fire (timer : nat)
| Settle (run : nat) (env : PipelineEnv)
| SocketTimeout (res : nat).

Section Pipeline.

(** [JSON.parse]: [None] when it throws. *)
Variable JSON_parse : string -> option Json.

Definition parse_failed (raw now : string) : Json :=
  JObj [ ("error", JStr "JSON parsing failed");
         ("raw_response", JStr (Str.substring0 1000 raw));
         ("parsed_at", JStr now) ].

Definition normalize (text now : string) : Json :=
  let cleaned := clean_response text in
  match JSON_parse cleaned with
  | Some parsed => parsed
  | None => parse_failed cleaned now
  end.

(** The value returned when the tier [m] answers with [text]. *)
Definition answer_of (env : GeminiEnv) (m : ModelConfig) (text : string)
    (usage : option UsageMetadata) : AnalysisResult :=
  {| description := normalize text (toISOString env);
     modelUsed := name m;
     tokenUsage := {| promptTokens := count_or_0 usage promptTokenCount;
                      candidatesTokens := count_or_0 usage candidatesTokenCount;
                      totalTokens := count_or_0 usage totalTokenCount |} |}.

(** The loop over the eligible tiers. [videoBuffer] is false once it
    has been set to null: a later iteration then fails in its own
    [try] before any call, and the loop continues. *)
Fixpoint try_models (env : GeminiEnv) (models : list ModelConfig)
    (videoBuffer : bool) : Settled AnalysisResult :=
  match models with
  | [] => Rejected "Todos los modelos de Gemini fallaron"
  | modelConfig :: rest =>
      if negb videoBuffer then try_models env rest videoBuffer
      else
        match generateContent env (name modelConfig) with
        | GenerateFailed _ => try_models env rest true
        | TextFailed _ => try_models env rest false
        | Responded text usage =>
            Resolved (answer_of env modelConfig text usage)
        end
  end.

Definition describe_body (env : GeminiEnv) : Settled AnalysisResult :=
  match statSync env with
  | Rejected message => Rejected message
  | Resolved size =>
      let mb := fileSizeInMB size in
      match size_gate size with
      | OverCeiling =>
          Rejected ("Archivo demasiado grande (" ++ Str.toFixed2 mb
                    ++ " MB). Máximo: 50 MB")
      | NoEligibleModel =>
          Rejected ("Archivo demasiado grande para todos los modelos ("
                    ++ Str.toFixed2 mb ++ " MB)")
      | Eligible models =>
          match readFileSync env with
          | Rejected message => Rejected ("Error leyendo archivo: " ++ message)
          | Resolved _ => try_models env models true
          end
      end
  end.

(** The outer [catch]: the mapping of common errors. *)
Definition map_common_errors (message : string) : string :=
  if Str.includes message "500" then "Servidor de Gemini temporalmente no disponible"
  else if Str.includes message "503" then "Servicio de Gemini sobrecargado"
  else if Str.includes message "403" then "API key inválida o sin permisos"
  else if Str.includes message "429" then "Límite de cuota excedido"
  else message.

Definition getVideoDescription (env : GeminiEnv) : Settled AnalysisResult :=
  if negb (genAI env) then Rejected "Gemini AI no está configurada correctamente"
  else
    match describe_body env with
    | Resolved result => Resolved result
    | Rejected message => Rejected (map_common_errors message)
    end.

(** ** One pipeline run: [performVideoAnalysis] and [processVideo] *)

(** [cleanupTempFile]: delete the file if it exists. When [unlinkSync]
    throws ([throws]), the [catch] logs the error and the file stays. *)
Definition cleanupTempFile (throws : bool) (filePath : string)
    (disk : gset string) : gset string :=
  if bool_decide (filePath ∈ disk) then
    if throws then disk else disk ∖ {[filePath]}
  else disk.

Definition analysis_try (videoId : string) (env : PipelineEnv)
    (disk : gset string) : Attempt :=
  match downloadVideoFromDrive env with
  | DownloadTimedOut partial =>
      {| outcome := Rejected "Timeout en descarga";
         filePath := None;
         files := match partial with Some p => {[p]} ∪ disk | None => disk end;
         trace := [CallDownload videoId] |}
  | DownloadFailed message =>
      {| outcome := Rejected message;
         filePath := None;
         files := disk;
         trace := [CallDownload videoId] |}
  | Downloaded path =>
      let disk := {[path]} ∪ disk in
      if analysis_timer_first env then
        {| outcome := Rejected "Timeout en análisis";
           filePath := Some path;
           files := disk;
           trace := [CallDownload videoId; CallDescribe path] |}
      else
        match getVideoDescription (gemini env) with
        | Rejected message =>
            {| outcome := Rejected message;
               filePath := Some path;
               files := disk;
               trace := [CallDownload videoId; CallDescribe path] |}
        | Resolved analysisResult =>
            let stored := CallInsert videoId (description analysisResult)
                                     (tokenUsage analysisResult) in
            {| outcome := match insertVideo env with
                          | Resolved _ => Resolved analysisResult
                          | Rejected message => Rejected message
                          end;
               filePath := Some path;
               files := disk;
               trace := [CallDownload videoId; CallDescribe path; stored] |}
        end
  end.

(** The [finally] block: [if (filePath) cleanupTempFile(filePath)]. *)
Definition analysis_finally (env : PipelineEnv) (a : Attempt) : Attempt :=
  match filePath a with
  | Some path =>
      if Str.truthy path then
        {| outcome := outcome a;
           filePath := filePath a;
           files := cleanupTempFile (unlinkSync_throws env) path (files a);
           trace := trace a ++ [CallCleanup path] |}
      else a
  | None => a
  end.

Definition performVideoAnalysis (videoId : string) (env : PipelineEnv)
    (disk : gset string) : Attempt :=
  analysis_finally env (analysis_try videoId env disk).

Definition usage_json (u : TokenUsage) : Json :=
  JObj [ ("promptTokens", JNum (promptTokens u));
         ("candidatesTokens", JNum (candidatesTokens u));
         ("totalTokens", JNum (totalTokens u)) ].

Definition cached_body (existingVideo : Row) : Json :=
  let parsedDescription :=
    match JSON_parse (stored_description existingVideo) with
    | Some parsed => parsed
    | None => JStr (stored_description existingVideo)
    end in
  let tokenUsage :=
    match token_usage existingVideo with
    | Some text =>
        if Str.truthy text then default JNull (JSON_parse text) else JNull
    | None => JNull
    end in
  JObj [ ("drive_id", JStr (drive_id existingVideo));
         ("description", parsedDescription);
         ("cached", JBool true);
         ("tokenUsage", tokenUsage) ].

Definition fresh_body (videoId : string) (result : AnalysisResult) : Json :=
  JObj [ ("drive_id", JStr videoId);
         ("description", description result);
         ("cached", JBool false);
         ("modelUsed", JStr (modelUsed result));
         ("tokenUsage", usage_json (tokenUsage result)) ].

(** [if (!res.headersSent) res.json(body)] *)
Definition reply (headersSent : bool) (res : nat) (status : Z) (body : Json)
    : list Effect :=
  if headersSent then [] else [Send res status body].

(** [processVideo]. [headersSent] is the flag of [res] when the run
    reaches its reply. When the timer of the outer race wins, the
    analysis is not cancelled; what it still does is recorded here with
    the run that started it. *)
Definition processVideo (videoId : string) (res : nat) (env : PipelineEnv)
    (headersSent : bool) (disk : gset string) : Processed :=
  match getVideoFromDB env with
  | Rejected message =>
      {| settled := Rejected message;
         disk_after := disk;
         effects := [CallGetVideoFromDB videoId] |}
  | Resolved (Some existingVideo) =>
      {| settled := Resolved tt;
         disk_after := disk;
         effects := CallGetVideoFromDB videoId
                    :: reply headersSent res 200 (cached_body existingVideo) |}
  | Resolved None =>
      let a := performVideoAnalysis videoId env disk in
      if processing_timer_first env then
        {| settled := Rejected "Procesamiento excedió el tiempo límite";
           disk_after := files a;
           effects := CallGetVideoFromDB videoId :: trace a |}
      else
        match outcome a with
        | Resolved result =>
            {| settled := Resolved tt;
               disk_after := files a;
               effects := CallGetVideoFromDB videoId :: trace a
                          ++ reply headersSent res 200 (fresh_body videoId result) |}
        | Rejected message =>
            {| settled := Rejected message;
               disk_after := files a;
               effects := CallGetVideoFromDB videoId :: trace a |}
        end
  end.

(** ** The queue: [ProcessingQueue] *)

Definition set_queue (q : list Item.t) (s : State) : State :=
  {| queue := q; processingIds := processingIds s;
     retryAttempts := retryAttempts s; currentProcessing := currentProcessing s;
     timers := timers s; nextTimer := nextTimer s; running := running s;
     log := log s; disk := disk s |}.

Definition set_processingIds (ids : gset string) (s : State) : State :=
  {| queue := queue s; processingIds := ids;
     retryAttempts := retryAttempts s; currentProcessing := currentProcessing s;
     timers := timers s; nextTimer := nextTimer s; running := running s;
     log := log s; disk := disk s |}.

Definition set_retryAttempts (m : gmap string Z) (s : State) : State :=
  {| queue := queue s; processingIds := processingIds s;
     retryAttempts := m; currentProcessing := currentProcessing s;
     timers := timers s; nextTimer := nextTimer s; running := running s;
     log := log s; disk := disk s |}.

Definition set_currentProcessing (n : Z) (s : State) : State :=
  {| queue := queue s; processingIds := processingIds s;
     retryAttempts := retryAttempts s; currentProcessing := n;
     timers := timers s; nextTimer := nextTimer s; running := running s;
     log := log s; disk := disk s |}.

Definition set_timers (t : gmap nat Timer) (next : nat) (s : State) : State :=
  {| queue := queue s; processingIds := processingIds s;
     retryAttempts := retryAttempts s; currentProcessing := currentProcessing s;
     timers := t; nextTimer := next; running := running s;
     log := log s; disk := disk s |}.

Definition set_running (r : list Run) (s : State) : State :=
  {| queue := queue s; processingIds := processingIds s;
     retryAttempts := retryAttempts s; currentProcessing := currentProcessing s;
     timers := timers s; nextTimer := nextTimer s; running := r;
     log := log s; disk := disk s |}.

Definition set_world (l : list Effect) (d : gset string) (s : State) : State :=
  {| queue := queue s; processingIds := processingIds s;
     retryAttempts := retryAttempts s; currentProcessing := currentProcessing s;
     timers := timers s; nextTimer := nextTimer s; running := running s;
     log := l; disk := d |}.

(** [res.headersSent] *)
Definition headersSent (s : State) (res : nat) : bool :=
  existsb (fun e => match e with
                    | Send r _ _ => Nat.eqb r res
                    | _ => false
                    end) (log s).

(** [res.status(status).json(body)] *)
Definition send (res : nat) (status : Z) (body : Json) (s : State) : State :=
  set_world (log s ++ [Send res status body]) (disk s) s.

Definition setTimeout (cb : Callback) (ms : Z) (s : State) : State :=
  set_timers (<[nextTimer s := {| callback := cb; delay := ms |}]> (timers s))
             (S (nextTimer s)) s.

Definition clearTimeout (handle : nat) (s : State) : State :=
  set_timers (delete handle (timers s)) (nextTimer s) s.

Fixpoint findIndex (videoId : string) (q : list Item.t) : option nat :=
  match q with
  | [] => None
  | item :: rest =>
      if String.eqb (Item.videoId item) videoId then Some O
      else S <$> findIndex videoId rest
  end.

Definition removeFromQueue (videoId : string) (s : State) : State :=
  let s :=
    match findIndex videoId (queue s) with
    | Some index =>
        match queue s !! index with
        | Some item =>
            clearTimeout (Item.timeout item) (set_queue (delete index (queue s)) s)
        | None => s
        end
    | None => s
    end in
  set_processingIds (processingIds s ∖ {[videoId]}) s.

(** [processQueue] up to its [await]: the run it starts is appended to
    [running]. *)
Definition processQueue (s : State) : State :=
  if (MAX_CONCURRENT_REQUESTS <=? currentProcessing s)
     || (length (queue s) =? 0)%nat
  then s
  else
    match List.find (fun item =>
                       negb (bool_decide (Item.videoId item ∈ processingIds s)))
                    (queue s) with
    | None => s
    | Some queueItem =>
        let videoId := Item.videoId queueItem in
        let s := set_processingIds ({[videoId]} ∪ processingIds s) s in
        let s := set_currentProcessing (currentProcessing s + 1) s in
        set_running (running s ++ [ {| run_videoId := videoId;
                                       run_res := Item.res queueItem |} ]) s
    end.

Definition add (videoId : string) (res : nat) (now : Z) (s : State) : State :=
  if bool_decide (videoId ∈ processingIds s) then
    send res 409 (JObj [ ("error", JStr "Video ya está siendo procesado");
                         ("videoId", JStr videoId) ]) s
  else if existsb (fun item => String.eqb (Item.videoId item) videoId) (queue s) then
    send res 409 (JObj [ ("error", JStr "Video ya está en la cola");
                         ("videoId", JStr videoId) ]) s
  else
    let timeout := nextTimer s in
    let s := setTimeout (Deadline videoId res) HTTP_TIMEOUT s in
    let queueItem := {| Item.videoId := videoId; Item.res := res;
                        Item.timestamp := now; Item.timeout := timeout |} in
    let s := set_queue (queue s ++ [queueItem]) s in
    processQueue s.

(** The callback of the deadline timer armed by [add]. *)
Definition deadline (videoId : string) (res : nat) (s : State) : State :=
  let s :=
    if headersSent s res then s
    else send res 408 (JObj [ ("error", JStr "Procesamiento tomó demasiado tiempo");
                              ("videoId", JStr videoId);
                              ("timeout", JBool true) ]) s in
  removeFromQueue videoId s.

Definition retryableMessages : list string :=
  [ "500"; "502"; "503"; "504";
    "timeout"; "network"; "ECONNRESET"; "ETIMEDOUT";
    "Internal Server Error"; "Service Unavailable";
    "temporalmente no disponible"; "sobrecargado" ].

Definition isRetryableError (message : string) : bool :=
  existsb (fun msg => Str.includes (Str.toLowerCase message) (Str.toLowerCase msg))
          retryableMessages.

(** The [catch] block of [processQueue]. *)
Definition on_error (videoId : string) (res : nat) (message : string)
    (s : State) : State :=
  let attempts := default 0 (retryAttempts s !! videoId) in
  if (attempts <? maxRetries) && isRetryableError message then
    let s := set_retryAttempts (<[videoId := attempts + 1]> (retryAttempts s)) s in
    setTimeout (Retry videoId) (5000 * (attempts + 1)) s
  else
    let s := set_retryAttempts (delete videoId (retryAttempts s)) s in
    if headersSent s res then s
    else send res 500
           (JObj [ ("error", JStr ("Error procesando video después de "
                                   ++ Str.of_Z (attempts + 1) ++ " intentos: "
                                   ++ message));
                   ("videoId", JStr videoId);
                   ("attempts", JNum (attempts + 1)) ]) s.

(** The [finally] block of [processQueue]. *)
Definition on_finally (videoId : string) (s : State) : State :=
  let s := set_currentProcessing (currentProcessing s - 1) s in
  let s := removeFromQueue videoId s in
  setTimeout Continue 1000 s.

(** The rest of [processQueue] once [processVideo] has settled, for the
    run at position [run] of [running]. *)
Definition settle (run : nat) (env : PipelineEnv) (s : State) : State :=
  match running s !! run with
  | None => s
  | Some r =>
      let videoId := run_videoId r in
      let res := run_res r in
      let s := set_running (delete run (running s)) s in
      let p := processVideo videoId res env (headersSent s res) (disk s) in
      let s := set_world (log s ++ effects p) (disk_after p) s in
      let s := match settled p with
               | Resolved _ => s
               | Rejected message => on_error videoId res message s
               end in
      on_finally videoId s
  end.

Definition fire (timer : nat) (s : State) : State :=
  match timers s !! timer with
  | None => s
  | Some t =>
      let s := clearTimeout timer s in
      match callback t with
      | Deadline videoId res => deadline videoId res s
      | Retry videoId =>
          processQueue (set_processingIds (processingIds s ∖ {[videoId]}) s)
      | Continue => processQueue s
      end
  end.

(** [app.post('/')] *)
Definition post (videoId : string) (res : nat) (now : Z) (s : State) : State :=
  if negb (Str.truthy videoId) then
    send res 400 (JObj [ ("error", JStr "El campo videoId es requerido") ]) s
  else add videoId res now s.

(** The timeout middleware: the callback given to [res.setTimeout]. *)
Definition socket_timeout (res : nat) (s : State) : State :=
  if headersSent s res then s
  else send res 408 (JObj [ ("error", JStr "Timeout de servidor");
                            ("timeout", JNum (HTTP_TIMEOUT / 1000)) ]) s.

Definition step (e : Event) (s : State) : State :=
  match e with
  | Post videoId res now => post videoId res now s
  | Tick => processQueue s
  | Fire timer => fire timer s
  | Settle run env => settle run env s
  | SocketTimeout res => socket_timeout res s
  end.

Definition exec (events : list Event) (s : State) : State :=
  fold_left (fun s e => step e s) events s.

(** The server after [new ProcessingQueue()]. *)
Definition initial : State :=
  {| queue := []; processingIds := ∅; retryAttempts := ∅;
     currentProcessing := 0; timers := ∅; nextTimer := 0;
     running := []; log := []; disk := ∅ |}.

End Pipeline.

(** ** Concrete environments used to run the model *)

(** A stand-in for [JSON.parse] on a handful of literals; every other
    text is rejected. *)
Definition literal_parse (text : string) : option Json :=
  if String.eqb text "null" then Some JNull
  else if String.eqb text "true" then Some (JBool true)
  else if String.eqb text "false" then Some (JBool false)
  else if String.eqb text "{}" then Some (JObj [])
  else if String.eqb text "[]" then Some (JArr [])
  else None.

(** Gemini answers every tier with [text]. *)
Definition gemini_says (text : string) : GeminiEnv :=
  {| genAI := true;
     statSync := Resolved (10 * 1024 * 1024);
     readFileSync := Resolved tt;
     generateContent := fun _ => Responded text None;
     toISOString := "2025-01-01T00:00:00.000Z" |}.

(** The first tier is overloaded, the second one answers with prose. *)
Definition gemini_second_tier : GeminiEnv :=
  {| genAI := true;
     statSync := Resolved (10 * 1024 * 1024);
     readFileSync := Resolved tt;
     generateContent := fun model =>
       if String.eqb model "gemini-2.5-flash"
       then GenerateFailed "[503 Service Unavailable] The model is overloaded"
       else Responded "The video shows a cat." None;
     toISOString := "2025-01-01T00:00:00.000Z" |}.

(** A run that finds nothing in the store, downloads and analyses. *)
Definition env_fresh (path : string) : PipelineEnv :=
  {| getVideoFromDB := Resolved None;
     downloadVideoFromDrive := Downloaded path;
     gemini := gemini_says "{}";
     analysis_timer_first := false;
     insertVideo := Resolved tt;
     unlinkSync_throws := false;
     processing_timer_first := false |}.

(** A run whose download loses the race against the 60 s timer. *)
Definition env_download_timeout : PipelineEnv :=
  {| getVideoFromDB := Resolved None;
     downloadVideoFromDrive := DownloadTimedOut None;
     gemini := gemini_says "{}";
     analysis_timer_first := false;
     insertVideo := Resolved tt;
     unlinkSync_throws := false;
     processing_timer_first := false |}.

(** A run whose inference loses the race against its timer. *)
Definition env_analysis_timeout (path : string) : PipelineEnv :=
  {| getVideoFromDB := Resolved None;
     downloadVideoFromDrive := Downloaded path;
     gemini := gemini_says "{}";
     analysis_timer_first := true;
     insertVideo := Resolved tt;
     unlinkSync_throws := false;
     processing_timer_first := false |}.

Definition row_B : Row :=
  {| drive_id := "B"; stored_description := "{}"; token_usage := None |}.

(** A run that finds [row_B] in the store. *)
Definition env_cached : PipelineEnv :=
  {| getVideoFromDB := Resolved (Some row_B);
     downloadVideoFromDrive := DownloadFailed "unused";
     gemini := gemini_says "{}";
     analysis_timer_first := false;
     insertVideo := Resolved tt;
     unlinkSync_throws := false;
     processing_timer_first := false |}.

(** Five requests at once and a slow store. "X" and "Y" run for 170 s,
    then "Z" and "W" for 97 s; "B" is started at 269 s and its lookup in
    the store is still pending when its deadline (timer 4, armed at 0 s
    for 270 s) fires; the lookup then answers with [row_B]. *)
Definition late_cache_hit : list Event :=
  [ Post "X" 0 0; Post "Y" 1 0; Post "Z" 2 0; Post "W" 3 0; Post "B" 4 0;
    Settle 0 (env_fresh "/tmp/X_0_x.mp4");
    Settle 0 (env_fresh "/tmp/Y_0_y.mp4");
    Fire 5; Fire 6;
    Settle 0 (env_fresh "/tmp/Z_0_z.mp4");
    Settle 0 (env_fresh "/tmp/W_0_w.mp4");
    Fire 7; Fire 8;
    Fire 4;
    Settle 0 env_cached ].

(** The responses to [res] among some effects, oldest first. *)
Definition sends_to (res : nat) (l : list Effect) : list (Z * Json) :=
  omap (fun e => match e with
                 | Send r status body =>
                     if Nat.eqb r res then Some (status, body) else None
                 | _ => None
                 end) l.

(** The responses written on [res], oldest first. *)
Definition responses (res : nat) (s : State) : list (Z * Json) :=
  sends_to res (log s).

(** From [s] to [s'] the response object [res] is left alone, or it
    receives its first response. *)
Definition first_or_none (res : nat) (s s' : State) : Prop :=
  responses res s' = responses res s \/
  (responses res s = [] /\ exists r, responses res s' = [r]).




(** The response object handed to the server by an event. *)
Definition handed_over (e : Event) : option nat :=
  match e with
  | Post _ res _ => Some res
  | _ => None
  end.

(** How many times the pipeline was started for [videoId]. *)
Definition attempts_made (videoId : string) (s : State) : nat :=
  length (List.filter (fun e => match e with
                                | CallGetVideoFromDB v => String.eqb v videoId
                                | _ => false
                                end) (log s)).

(** The calls of the fetch stage and of the inference stage. *)
Definition is_fetch_or_infer (e : Effect) : bool :=
  match e with
  | CallDownload _ | CallDescribe _ => true
  | _ => false
  end.

(** The counter [currentProcessing] counts the runs in progress and is
    within the ceiling. *)
Definition within_capacity (s : State) : Prop :=
  currentProcessing s = Z.of_nat (length (running s)) /\
  0 <= currentProcessing s <= MAX_CONCURRENT_REQUESTS.

(** No deadline timer is pending. *)
Definition no_deadline (s : State) : bool :=
  forallb (fun kt => match callback (snd kt) with
                     | Deadline _ _ => false
                     | _ => true
                     end) (map_to_list (timers s)).

(** Nothing is queued, nothing runs and no deadline is pending. *)
Definition idle (s : State) : Prop :=
  queue s = [] /\ running s = [] /\ no_deadline s = true.

(** One request for "A" whose run fails with a retryable error: its
    download loses the race against the 60 s timer. *)
Definition one_retryable_failure : list Event :=
  [ Post "A" 0 0; Settle 0 env_download_timeout ].

(** Three requests for "A", each sent after the run of the one before
    has failed with a retryable error and its timers have fired. *)
Definition three_requests_failing : list Event :=
  [ Post "A" 0 0; Settle 0 env_download_timeout; Fire 2; Fire 1;
    Post "A" 1 70000; Settle 0 env_download_timeout; Fire 5; Fire 4;
    Post "A" 2 140000; Settle 0 env_download_timeout; Fire 7 ].

(** A request for "A" whose run fails with a retryable error, then a
    second request for "A" whose run succeeds. *)
Definition failure_then_success : list Event :=
  [ Post "A" 0 0; Settle 0 env_download_timeout; Fire 2; Fire 1;
    Post "A" 1 70000; Settle 0 (env_fresh "/tmp/A_70000_a.mp4"); Fire 4 ].

(** Events that need no client: ticks, timers and settling runs. *)
Definition internal (e : Event) : bool :=
  match e with
  | Tick | Fire _ | Settle _ _ => true
  | Post _ _ _ | SocketTimeout _ => false
  end.

(** ** Invariants of the queue *)

(** No two queued items have the same [videoId]. *)
Definition ids_distinct (s : State) : Prop :=
  NoDup (Item.videoId <$> queue s).

(** Every id of the in-flight set belongs to a run in progress. *)
Definition inflight_have_runs (s : State) : Prop :=
  forall v, v ∈ processingIds s ->
            exists r, r ∈ running s /\ run_videoId r = v.

(** The pending deadline timers are those of the queued items. *)
Definition deadlines_match (s : State) : Prop :=
  (forall item, item ∈ queue s ->
     timers s !! Item.timeout item
       = Some {| callback := Deadline (Item.videoId item) (Item.res item);
                 delay := HTTP_TIMEOUT |}) /\
  (forall k t v r, timers s !! k = Some t -> callback t = Deadline v r ->
     exists item, item ∈ queue s /\ Item.timeout item = k) /\
  (forall k t, timers s !! k = Some t -> (k < nextTimer s)%nat).

(** Every retry counter is between 1 and [maxRetries]. *)
Definition counters_in_range (s : State) : Prop :=
  forall v n, retryAttempts s !! v = Some n -> 1 <= n <= maxRetries.

(** The shapes of the responses the queue writes: a result carries its
    [cached] flag, a failure its number of attempts. *)
Definition answer_ok (e : Effect) : Prop :=
  match e with
  | Send _ status body =>
      (status = 200 /\ exists b, field "cached" body = Some (JBool b)) \/
      status = 400 \/ status = 408 \/ status = 409 \/
      (status = 500 /\
       exists n, field "attempts" body = Some (JNum n) /\
                 1 <= n <= maxRetries + 1)
  | _ => True
  end.

(** ** The sweeps of the temporary directory *)

(** An entry of [/tmp] as the sweeps see it: [mtime] is [None] when
    [statSync] throws, [unlinkable] says whether [unlinkSync] succeeds
    (it does not on a directory, for instance). *)
Record Entry := {
  entry_name : string;
  mtime : option Z;
  unlinkable : bool
}.

(** [(now - stats.mtime.getTime()) / (1000 * 60)] *)
Definition ageInMinutes (now modified : Z) : Q :=
  (inject_Z (now - modified) / inject_Z (1000 * 60))%Q.

(** The sweep that runs every 10 minutes: each entry is handled in its
    own [try], so a failure on one entry is ignored. The result is what
    the directory still holds and the counter [cleaned]. *)
Fixpoint periodic_sweep (now : Z) (files : list Entry) : list Entry * Z :=
  match files with
  | [] => ([], 0)
  | file :: rest =>
      let '(kept, cleaned) := periodic_sweep now rest in
      match mtime file with
      | None => (file :: kept, cleaned)
      | Some modified =>
          if Qgtb (ageInMinutes now modified) (inject_Z 15) then
            if unlinkable file then (kept, cleaned + 1)
            else (file :: kept, cleaned)
          else (file :: kept, cleaned)
      end
  end.

(** The sweep at start-up: one [try] around the whole loop, so the
    first failure ends it. The result is what the directory still holds. *)
Fixpoint initial_sweep (now : Z) (files : list Entry) : list Entry :=
  match files with
  | [] => []
  | file :: rest =>
      match mtime file with
      | None => files
      | Some modified =>
          if Qgtb (ageInMinutes now modified) (inject_Z 30) then
            if unlinkable file then initial_sweep now rest
            else files
          else file :: initial_sweep now rest
      end
  end.

(** The entries the periodic sweep deletes: older than 15 minutes
    (900000 ms), with a readable date, and deletable. *)
Definition swept (now : Z) (file : Entry) : bool :=
  match mtime file with
  | Some modified => (900000 <? now - modified) && unlinkable file
  | None => false
  end.

(** An entry on which the initial sweep fails: its date cannot be read,
    or it is older than 30 minutes and cannot be deleted. *)
Definition blocks (now : Z) (file : Entry) : bool :=
  match mtime file with
  | Some modified => (1800000 <? now - modified) && negb (unlinkable file)
  | None => true
  end.

Definition stale (now : Z) (file : Entry) : bool :=
  match mtime file with
  | Some modified => 1800000 <? now - modified
  | None => false
  end.

(** ** The fetch stage: [downloadVideoFromDrive] *)

Module Drive.

(** [parseInt] of a string: leading white space, a sign, then the
    longest run of digits, hexadecimal after [0x]; [None] is NaN.
    Integers are exact here, as they are in the source below 2^53. *)
Definition digit (radix : Z) (c : ascii) : option Z :=
  let n := Z.of_nat (nat_of_ascii c) in
  let d := if (48 <=? n) && (n <=? 57) then Some (n - 48)
           else if (97 <=? n) && (n <=? 102) then Some (n - 87)
           else if (65 <=? n) && (n <=? 70) then Some (n - 55)
           else None in
  match d with
  | Some v => if v <? radix then Some v else None
  | None => None
  end.

Fixpoint digits (radix : Z) (acc : option Z) (s : string) : option Z :=
  match s with
  | EmptyString => acc
  | String c rest =>
      match digit radix c with
      | Some d => digits radix (Some (default 0 acc * radix + d)) rest
      | None => acc
      end
  end.

Definition unsigned (s : string) : option Z :=
  match s with
  | String "0" (String "x" rest) | String "0" (String "X" rest) =>
      digits 16 None rest
  | _ => digits 10 None s
  end.

Definition parseInt (s : string) : option Z :=
  match Str.trimStart s with
  | String "-" rest => Z.opp <$> unsigned rest
  | String "+" rest => unsigned rest
  | rest => unsigned rest
  end.

(** The answer of [drive.files.get] with [fields: 'name, mimeType, size']. *)
Record Metadata := { md_name : option string; md_size : option string }.

(** A call raced against a timer. *)
Inductive Timed (A : Type) : Type :=
| Answered (answer : Settled A)
| TimerWon.
Arguments Answered {A} answer.
Arguments TimerWon {A}.

(** How the copy of the stream to the file ends. *)
Inductive Transfer : Type :=
| TransferEnd
| SourceError (message : string)
| DestError (message : string)
| SaveTimerWon.

Record Env := {
  drive : bool;
  get_metadata : Timed Metadata;
  get_media : Timed unit;
  transfer : Transfer;
  (** [fs.unlinkSync] throws in [cleanupTempFile] *)
  unlinkSync_throws : bool;
  Date_now : Z
}.

Inductive Call : Type :=
| GetMetadata (fileId : string)
| GetMedia (fileId : string)
| CreateWriteStream (filePath : string)
| Cleanup (filePath : string).

Record Outcome := {
  result : Settled string;
  disk_after : gset string;
  calls : list Call
}.

(** The [catch] of the function: [throw new Error(`No se pudo descargar el video: ...`)]. *)
Definition wrapped (message : string) : string :=
  "No se pudo descargar el video: " ++ message.

(** [fileMetadata.data.name || `video_${videoId}`] *)
Definition fileName (videoId : string) (md : Metadata) : string :=
  match md_name md with
  | Some given => if Str.truthy given then given else "video_" ++ videoId
  | None => "video_" ++ videoId
  end.

(** [parseInt(fileMetadata.data.size) || 0] *)
Definition fileSize (md : Metadata) : Z :=
  match md_size md with
  | Some text => default 0 (parseInt text)
  | None => 0
  end.

(** [downloadVideoFromDrive]. [path_join] is [path.join]. The promise
    that copies the stream is returned without [await], so its rejection
    leaves the function as it is: the [catch] does not see it. *)
Definition downloadVideoFromDrive (path_join : string -> string -> string)
    (videoId : string) (env : Env) (disk : gset string) : Outcome :=
  if negb (drive env) then
    {| result := Rejected "Google Drive API no está configurada correctamente";
       disk_after := disk; calls := [] |}
  else
    match get_metadata env with
    | TimerWon =>
        {| result := Rejected (wrapped "Timeout obteniendo metadata");
           disk_after := disk; calls := [GetMetadata videoId] |}
    | Answered (Rejected message) =>
        {| result := Rejected (wrapped message);
           disk_after := disk; calls := [GetMetadata videoId] |}
    | Answered (Resolved md) =>
        if 100 * 1024 * 1024 <? fileSize md then
          {| result := Rejected (wrapped ("Archivo demasiado grande: "
                                          ++ Str.toFixed2 (fileSizeInMB (fileSize md))
                                          ++ " MB"));
             disk_after := disk; calls := [GetMetadata videoId] |}
        else
          let filePath :=
            path_join "/tmp" (videoId ++ "_" ++ Str.of_Z (Date_now env) ++ "_"
                              ++ fileName videoId md) in
          match get_media env with
          | TimerWon =>
              {| result := Rejected (wrapped "Timeout en descarga");
                 disk_after := disk;
                 calls := [GetMetadata videoId; GetMedia videoId] |}
          | Answered (Rejected message) =>
              {| result := Rejected (wrapped message);
                 disk_after := disk;
                 calls := [GetMetadata videoId; GetMedia videoId] |}
          | Answered (Resolved _) =>
              let started := [GetMetadata videoId; GetMedia videoId;
                              CreateWriteStream filePath] in
              let written := {[filePath]} ∪ disk in
              match transfer env with
              | TransferEnd =>
                  {| result := Resolved filePath;
                     disk_after := written; calls := started |}
              | SourceError message | DestError message =>
                  {| result := Rejected message;
                     disk_after := cleanupTempFile (unlinkSync_throws env)
                                                   filePath written;
                     calls := started ++ [Cleanup filePath] |}
              | SaveTimerWon =>
                  {| result := Rejected "Timeout guardando archivo";
                     disk_after := written; calls := started |}
              end
          end
    end.

End Drive.

(** Drive answers in time with a file of 2048 bytes but the stream
    breaks. *)
Definition drive_broken_stream : Drive.Env :=
  {| Drive.drive := true;
     Drive.get_metadata :=
       Drive.Answered (Resolved {| Drive.md_name := Some "clip.mp4";
                                   Drive.md_size := Some "2048" |});
     Drive.get_media := Drive.Answered (Resolved tt);
     Drive.transfer := Drive.SourceError "read ECONNRESET";
     Drive.unlinkSync_throws := false;
     Drive.Date_now := 1700000000000 |}.

(** Drive reports a file of 200 MB. *)
Definition drive_oversized : Drive.Env :=
  {| Drive.drive := true;
     Drive.get_metadata :=
       Drive.Answered (Resolved {| Drive.md_name := Some "film.mov";
                                   Drive.md_size := Some "209715200" |});
     Drive.get_media := Drive.Answered (Resolved tt);
     Drive.transfer := Drive.TransferEnd;
     Drive.unlinkSync_throws := false;
     Drive.Date_now := 1700000000000 |}.

(** Drive reports no size, and the file is copied. *)
Definition drive_unknown_size : Drive.Env :=
  {| Drive.drive := true;
     Drive.get_metadata :=
       Drive.Answered (Resolved {| Drive.md_name := None;
                                   Drive.md_size := None |});
     Drive.get_media := Drive.Answered (Resolved tt);
     Drive.transfer := Drive.TransferEnd;
     Drive.unlinkSync_throws := false;
     Drive.Date_now := 1700000000000 |}.

(** The request to Drive for the metadata fails. *)
Definition drive_unreachable : Drive.Env :=
  {| Drive.drive := true;
     Drive.get_metadata := Drive.Answered (Rejected "connect ETIMEDOUT 142.250.0.1:443");
     Drive.get_media := Drive.Answered (Resolved tt);
     Drive.transfer := Drive.TransferEnd;
     Drive.unlinkSync_throws := false;
     Drive.Date_now := 1700000000000 |}.

(** A stand-in for [path.join] on names without separators. *)
Definition join_plain (dir file : string) : string := dir ++ "/" ++ file.

(** A run that is still analysing when the timer of [ANALYSIS_TIMEOUT]
    fires. *)
Definition env_processing_timeout (path : string) : PipelineEnv :=
  {| getVideoFromDB := Resolved None;
     downloadVideoFromDrive := Downloaded path;
     gemini := gemini_says "{}";
     analysis_timer_first := false;
     insertVideo := Resolved tt;
     unlinkSync_throws := false;
     processing_timer_first := true |}.

(** The answer of the first tier is blocked: [response.text()] throws. *)
Definition gemini_blocked_answer : GeminiEnv :=
  {| genAI := true;
     statSync := Resolved (10 * 1024 * 1024);
     readFileSync := Resolved tt;
     generateContent := fun model =>
       if String.eqb model "gemini-2.5-flash"
       then TextFailed "Response was blocked due to SAFETY"
       else Responded "{}" None;
     toISOString := "2025-01-01T00:00:00.000Z" |}.

(** A run that downloads and analyses, and whose temporary file
    cannot be deleted. *)
Definition env_unlink_fails (path : string) : PipelineEnv :=
  {| getVideoFromDB := Resolved None;
     downloadVideoFromDrive := Downloaded path;
     gemini := gemini_says "{}";
     analysis_timer_first := false;
     insertVideo := Resolved tt;
     unlinkSync_throws := true;
     processing_timer_first := false |}.

(** A run whose download loses the race against the 60 s timer after
    it has started to write [path]. *)
Definition env_download_abandoned (path : string) : PipelineEnv :=
  {| getVideoFromDB := Resolved None;
     downloadVideoFromDrive := DownloadTimedOut (Some path);
     gemini := gemini_says "{}";
     analysis_timer_first := false;
     insertVideo := Resolved tt;
     unlinkSync_throws := false;
     processing_timer_first := false |}.

(** The server with one request for "A" admitted and its run started. *)
Definition one_request_running : State := add "A" 0 0 initial.

(** * Properties *)

(** ** Strings *)

Lemma prefix_cons (a b : ascii) (p s : string) :
  String.prefix (String a p) (String b s)
    = if Ascii.ascii_dec a b then String.prefix p s else false.
Proof. reflexivity. Qed.

Lemma prefix_append (p s w : string) :
  String.prefix p s = true -> String.prefix p (s ++ w) = true.
Proof.
  revert s. induction p as [|a p IH]; intros s H; [now destruct (s ++ w)|].
  destruct s as [|b s]; [discriminate|].
  change (String b s ++ w) with (String b (s ++ w)).
  rewrite prefix_cons in *. destruct (Ascii.ascii_dec a b); [now apply IH | discriminate].
Qed.

Lemma prefix_shorter (p q s : string) :
  String.prefix (p ++ q) s = true -> String.prefix p s = true.
Proof.
  revert s. induction p as [|a p IH]; intros s H; [now destruct s|].
  destruct s as [|b s]; [discriminate|].
  change (String a p ++ q) with (String a (p ++ q)) in H.
  rewrite prefix_cons in *. destruct (Ascii.ascii_dec a b); [now apply IH | discriminate].
Qed.

Lemma includes_append_r (s w p : string) :
  Str.includes s p = true -> Str.includes (s ++ w) p = true.
Proof.
  induction s as [|c s IH]; cbn [Str.includes]; intros H.
  - rewrite orb_false_r in H.
    destruct p; [now destruct w | discriminate].
  - apply orb_true_iff in H as [H | H].
    + change (String c s ++ w) with (String c (s ++ w)).
      cbn [Str.includes]. apply orb_true_iff. left.
      now apply (prefix_append p (String c s) w).
    + change (String c s ++ w) with (String c (s ++ w)).
      cbn [Str.includes]. apply orb_true_iff. right. now apply IH.
Qed.

Lemma includes_append_l (w s p : string) :
  Str.includes s p = true -> Str.includes (w ++ s) p = true.
Proof.
  intros H. induction w as [|c w IH]; [exact H|].
  change (String c w ++ s) with (String c (w ++ s)).
  cbn [Str.includes]. apply orb_true_iff. now right.
Qed.

Lemma includes_shorter (s p q : string) :
  Str.includes s (p ++ q) = true -> Str.includes s p = true.
Proof.
  induction s as [|c s IH]; cbn [Str.includes]; intros H;
    apply orb_true_iff in H as [H | H]; apply orb_true_iff.
  - left. now apply (prefix_shorter p q).
  - discriminate.
  - left. now apply (prefix_shorter p q).
  - right. now apply IH.
Qed.

Lemma string_length_ind (P : string -> Prop) :
  (forall s, (forall t, (String.length t < String.length s)%nat -> P t) -> P s) ->
  forall s, P s.
Proof.
  intros step s. remember (String.length s) as n eqn:Hn.
  revert s Hn. induction n as [n IH] using lt_wf_ind. intros s ->.
  apply step. intros t Ht. now apply (IH (String.length t)).
Qed.

Lemma append_cons (c : ascii) (a b : string) :
  String c a ++ b = String c (a ++ b).
Proof. reflexivity. Qed.

Lemma trimStart_split (s : string) :
  exists w, s = w ++ Str.trimStart s /\ Str.blank w = true.
Proof.
  induction s as [s IH] using string_length_ind.
  destruct s as [|a rest]; [now exists ""|].
  cbn [Str.trimStart]. destruct (Str.white1 a) eqn:H1.
  { destruct (IH rest) as (w & Hw & Hblank); [cbn; lia|].
    exists (String a w). rewrite append_cons. cbn. rewrite H1.
    split; [now f_equal | assumption]. }
  destruct rest as [|b rest]; [now exists ""|].
  destruct (Str.white2 a b) eqn:H2.
  { destruct (IH rest) as (w & Hw & Hblank); [cbn; lia|].
    exists (String a (String b w)). rewrite !append_cons. cbn. rewrite H1, H2.
    split; [now do 2 f_equal | assumption]. }
  destruct rest as [|c rest]; [now exists ""|].
  destruct (Str.white3 a b c) eqn:H3; [|now exists ""].
  destruct (IH rest) as (w & Hw & Hblank); [cbn; lia|].
  exists (String a (String b (String c w))). rewrite !append_cons. cbn.
  rewrite H1, H2, H3. split; [now do 3 f_equal | assumption].
Qed.

Lemma trimStart_suffix (s : string) : exists w, s = w ++ Str.trimStart s.
Proof. destruct (trimStart_split s) as (w & Hw & _). now exists w. Qed.

Lemma blank_app (a b : string) :
  Str.blank a = true -> Str.blank b = true -> Str.blank (a ++ b) = true.
Proof.
  intros Ha Hb. induction a as [a IH] using string_length_ind.
  destruct a as [|x r]; [exact Hb|].
  cbn [Str.blank] in Ha. change (String x r ++ b) with (String x (r ++ b)).
  cbn [Str.blank]. destruct (Str.white1 x) eqn:H1.
  { apply IH; [cbn; lia | assumption]. }
  destruct r as [|y r]; [discriminate|].
  change (String y r ++ b) with (String y (r ++ b)). cbn [Str.blank].
  destruct (Str.white2 x y) eqn:H2.
  { apply IH; [cbn; lia | assumption]. }
  destruct r as [|z r]; [discriminate|].
  change (String z r ++ b) with (String z (r ++ b)). cbn [Str.blank].
  destruct (Str.white3 x y z) eqn:H3; [|discriminate].
  apply IH; [cbn; lia | assumption].
Qed.

Lemma trimEnd_cons (c : ascii) (rest : string) :
  Str.trimEnd (String c rest)
    = if Str.blank (String c rest) then "" else String c (Str.trimEnd rest).
Proof. reflexivity. Qed.

Lemma trimEnd_split (s : string) :
  exists w, s = Str.trimEnd s ++ w /\ Str.blank w = true.
Proof.
  induction s as [|c s (w & Hw & Hblank)]; [now exists ""|].
  rewrite trimEnd_cons. destruct (Str.blank (String c s)) eqn:Hs.
  - now exists (String c s).
  - exists w. split; [|assumption].
    change (String c s = String c (Str.trimEnd s ++ w)). now f_equal.
Qed.

Lemma trimEnd_prefix (s : string) : exists w, s = Str.trimEnd s ++ w.
Proof. destruct (trimEnd_split s) as (w & Hw & _). now exists w. Qed.

Lemma trimEnd_idempotent (s : string) :
  Str.trimEnd (Str.trimEnd s) = Str.trimEnd s.
Proof.
  induction s as [|c s IH]; [reflexivity|].
  rewrite trimEnd_cons. destruct (Str.blank (String c s)) eqn:Hs; [reflexivity|].
  rewrite trimEnd_cons, IH.
  destruct (Str.blank (String c (Str.trimEnd s))) eqn:Hkept; [|reflexivity].
  destruct (trimEnd_split s) as (w & Hw & Hblank).
  assert (Hall : Str.blank (String c (Str.trimEnd s) ++ w) = true)
    by now apply blank_app.
  change (String c (Str.trimEnd s) ++ w) with (String c (Str.trimEnd s ++ w)) in Hall.
  rewrite <- Hw in Hall. congruence.
Qed.

Lemma length_append (a b : string) :
  String.length (a ++ b) = (String.length a + String.length b)%nat.
Proof.
  induction a as [|c a IH]; [reflexivity|].
  rewrite append_cons. cbn. now rewrite IH.
Qed.

Lemma trimStart_length (s : string) :
  (String.length (Str.trimStart s) <= String.length s)%nat.
Proof.
  destruct (trimStart_suffix s) as [w Hw].
  rewrite Hw at 2. rewrite length_append. lia.
Qed.

(** A string that [trimStart] leaves alone has no prefix that it
    shortens. *)
Lemma trimStart_fixed_prefix (p w : string) :
  Str.trimStart (p ++ w) = p ++ w -> Str.trimStart p = p.
Proof.
  intros Hfixed.
  assert (Hshort : forall head rest : string,
            p ++ w = head ++ rest -> head <> "" ->
            Str.trimStart (p ++ w) = Str.trimStart rest -> False).
  { intros head rest Heq Hhead Htrim.
    pose proof (trimStart_length rest) as Hlen.
    rewrite <- Htrim, Hfixed, Heq, length_append in Hlen.
    destruct head; [congruence | cbn in Hlen; lia]. }
  destruct p as [|a p]; [reflexivity|].
  change (String a p ++ w) with (String a (p ++ w)) in *.
  cbn [Str.trimStart] in *. destruct (Str.white1 a) eqn:H1.
  { exfalso. apply (Hshort (String a "") (p ++ w)); [reflexivity | discriminate |].
    reflexivity. }
  destruct p as [|b p]; [reflexivity|].
  change (String b p ++ w) with (String b (p ++ w)) in *.
  cbn [Str.trimStart] in *.
  destruct (Str.white2 a b) eqn:H2.
  { exfalso. apply (Hshort (String a (String b "")) (p ++ w));
      [reflexivity | discriminate |].
    reflexivity. }
  destruct p as [|c p]; [reflexivity|].
  change (String c p ++ w) with (String c (p ++ w)) in *.
  cbn [Str.trimStart] in *.
  destruct (Str.white3 a b c) eqn:H3; [|reflexivity].
  exfalso. apply (Hshort (String a (String b (String c ""))) (p ++ w));
    [reflexivity | discriminate |].
  reflexivity.
Qed.

Lemma trimStart_idempotent (s : string) :
  Str.trimStart (Str.trimStart s) = Str.trimStart s.
Proof.
  induction s as [s IH] using string_length_ind.
  destruct s as [|a rest]; [reflexivity|].
  cbn [Str.trimStart]. destruct (Str.white1 a) eqn:H1.
  { apply IH. cbn. lia. }
  destruct rest as [|b rest]; [cbn; now rewrite H1|].
  destruct (Str.white2 a b) eqn:H2.
  { apply IH. cbn. lia. }
  destruct rest as [|c rest]; [cbn; now rewrite H1, H2|].
  destruct (Str.white3 a b c) eqn:H3.
  { apply IH. cbn. lia. }
  cbn. now rewrite H1, H2, H3.
Qed.

Lemma trimStart_trimEnd (s : string) :
  Str.trimStart (Str.trimEnd (Str.trimStart s)) = Str.trimEnd (Str.trimStart s).
Proof.
  destruct (trimEnd_prefix (Str.trimStart s)) as [w Hw].
  apply (trimStart_fixed_prefix _ w). rewrite <- Hw. apply trimStart_idempotent.
Qed.

Lemma trim_idempotent (s : string) : Str.trim (Str.trim s) = Str.trim s.
Proof.
  unfold Str.trim. rewrite trimStart_trimEnd. apply trimEnd_idempotent.
Qed.

(** [trim] removes white space, and only white space, at both ends. *)
Lemma trim_split (s : string) :
  exists before after,
    s = before ++ Str.trim s ++ after /\
    Str.blank before = true /\ Str.blank after = true.
Proof.
  destruct (trimStart_split s) as (before & Hbefore & Hb).
  destruct (trimEnd_split (Str.trimStart s)) as (after & Hafter & Ha).
  exists before, after. unfold Str.trim. now rewrite <- Hafter.
Qed.

Lemma sequence_cases (c : ascii) :
  Str.sequence c = (1, 1)%nat \/ Str.sequence c = (2, 1)%nat \/
  Str.sequence c = (3, 1)%nat \/ Str.sequence c = (4, 2)%nat.
Proof.
  unfold Str.sequence.
  destruct (nat_of_ascii c <? 192)%nat; [now left|].
  destruct (nat_of_ascii c <? 224)%nat; [now right; left|].
  destruct (nat_of_ascii c <? 240)%nat; [now right; right; left|].
  destruct (nat_of_ascii c <? 248)%nat; [now right; right; right | now left].
Qed.

Lemma code_units_length (c : ascii) (rest : string) :
  List.length (Str.code_units c rest) = snd (Str.sequence c).
Proof.
  unfold Str.code_units.
  destruct (sequence_cases c) as [H|[H|[H|H]]]; rewrite H; reflexivity.
Qed.

(** The bytes still to be copied are copied. *)
Lemma get_substring_from (s : string) (i n copy : nat) :
  (i < copy)%nat ->
  String.get i (Str.substring_from n copy s) = String.get i s.
Proof.
  revert i copy. induction s as [|c s IH]; intros i copy Hi; [reflexivity|].
  destruct copy as [|copy]; [lia|]. cbn [Str.substring_from].
  destruct i as [|i]; [reflexivity|]. cbn [String.get]. apply IH. lia.
Qed.

Lemma code_units_copied (c : ascii) (n : nat) (rest : string) :
  Str.code_units c (Str.substring_from n (fst (Str.sequence c) - 1) rest)
    = Str.code_units c rest.
Proof.
  unfold Str.code_units, Str.code_point, Str.trail.
  destruct (sequence_cases c) as [H|[H|[H|H]]]; rewrite H; cbn [fst snd Nat.sub];
    rewrite ?get_substring_from by lia; reflexivity.
Qed.

Lemma high_surrogate_range (cp : Z) : 0 <= Str.high_surrogate cp < 65536.
Proof. unfold Str.high_surrogate. apply Z.mod_pos_bound. lia. Qed.

Lemma byte_of_nat (z : Z) :
  0 <= z < 256 -> Str.byte (ascii_of_nat (Z.to_nat z)) = z.
Proof.
  intros Hz. unfold Str.byte. rewrite nat_ascii_embedding by lia. lia.
Qed.

(** A code unit that stands alone is read back from its three bytes. *)
Lemma units_three_bytes (u : Z) :
  0 <= u < 65536 -> Str.units (Str.three_bytes u) = [u].
Proof.
  intros Hu.
  assert (Hq : 0 <= u / 4096 < 16) by (split; [apply Z.div_pos | apply Z.div_lt_upper_bound]; lia).
  pose proof (Z.mod_pos_bound (u / 64) 64 ltac:(lia)) as Hm.
  pose proof (Z.mod_pos_bound u 64 ltac:(lia)) as Hr.
  unfold Str.units, Str.three_bytes. cbn [Str.units_from].
  assert (Hseq : Str.sequence (ascii_of_nat (Z.to_nat (224 + u / 4096))) = (3, 1)%nat).
  { unfold Str.sequence. rewrite nat_ascii_embedding by lia.
    destruct (Nat.ltb_spec (Z.to_nat (224 + u / 4096)) 192); [lia|].
    destruct (Nat.ltb_spec (Z.to_nat (224 + u / 4096)) 224); [lia|].
    destruct (Nat.ltb_spec (Z.to_nat (224 + u / 4096)) 240); [reflexivity | lia]. }
  unfold Str.code_units, Str.code_point, Str.trail. rewrite Hseq.
  cbn [fst snd Nat.sub String.get Str.units_from]. rewrite !byte_of_nat by lia.
  rewrite app_nil_r. f_equal.
  replace ((224 + u / 4096) mod 16) with (u / 4096)
    by (apply Z.mod_unique with 14; lia).
  replace ((128 + (u / 64) mod 64) mod 64) with ((u / 64) mod 64)
    by (apply Z.mod_unique with 2; lia).
  replace ((128 + u mod 64) mod 64) with (u mod 64)
    by (apply Z.mod_unique with 2; lia).
  pose proof (Z.div_mod u 64 ltac:(lia)).
  pose proof (Z.div_mod (u / 64) 64 ltac:(lia)).
  replace (u / 4096) with (u / 64 / 64) by (rewrite Z.div_div by lia; reflexivity).
  lia.
Qed.

(** The code units of [s.substring(0, n)] are the first [n] code units
    of [s]. *)
Lemma units_substring_from (s : string) (n copy : nat) :
  Str.units_from copy (Str.substring_from n copy s)
    = take n (Str.units_from copy s).
Proof.
  revert n copy. induction s as [|c s IH]; intros n copy.
  { cbn. now rewrite take_nil. }
  destruct copy as [|copy]; cbn [Str.substring_from Str.units_from]; [|apply IH].
  pose proof (code_units_length c s) as Hlen.
  destruct (Nat.leb_spec (snd (Str.sequence c)) n) as [Hfits | Hcut].
  - cbn [Str.units_from]. rewrite code_units_copied, IH.
    rewrite take_app_ge by lia. now rewrite Hlen.
  - destruct n as [|n]; [reflexivity|].
    change (Str.units_from 0 (Str.three_bytes (Str.high_surrogate (Str.code_point c s))))
      with (Str.units (Str.three_bytes (Str.high_surrogate (Str.code_point c s)))).
    rewrite units_three_bytes by apply high_surrogate_range.
    unfold Str.code_units in *.
    destruct (sequence_cases c) as [H|[H|[H|H]]]; rewrite H in *;
      cbn [snd] in *; try lia.
    assert (n = 0%nat) as -> by lia. reflexivity.
Qed.

Lemma units_substring0 (n : nat) (s : string) :
  Str.units (Str.substring0 n s) = take n (Str.units s).
Proof. apply units_substring_from. Qed.

Lemma substring_from_short (s : string) (n copy : nat) :
  (List.length (Str.units_from copy s) <= n)%nat ->
  Str.substring_from n copy s = s.
Proof.
  revert n copy. induction s as [|c s IH]; intros n copy Hlen; [reflexivity|].
  destruct copy as [|copy]; cbn [Str.substring_from Str.units_from] in *.
  - rewrite length_app, code_units_length in Hlen.
    destruct (Nat.leb_spec (snd (Str.sequence c)) n) as [_ | Hcut]; [|lia].
    f_equal. apply IH. lia.
  - f_equal. now apply IH.
Qed.

(** A string of at most [n] code units is its own [substring(0, n)]. *)
Lemma substring0_short (n : nat) (s : string) :
  (Str.length s <= n)%nat -> Str.substring0 n s = s.
Proof. apply substring_from_short. Qed.

Lemma includes_trim (s p : string) :
  Str.includes (Str.trim s) p = true -> Str.includes s p = true.
Proof.
  unfold Str.trim. intros H.
  destruct (trimStart_suffix s) as [w Hw].
  destruct (trimEnd_prefix (Str.trimStart s)) as [w' Hw'].
  rewrite Hw, Hw'. now apply includes_append_l, includes_append_r.
Qed.

Lemma strip_fence_without (fence s : string) :
  Str.includes s fence = false -> Str.strip_fence fence 0 s = s.
Proof.
  induction s as [|c s IH]; [reflexivity|].
  cbn [Str.includes Str.strip_fence]. intros H.
  apply orb_false_iff in H as [Hprefix Hrest].
  rewrite Hprefix. now rewrite IH.
Qed.

Lemma clean_response_unfenced (text : string) :
  Str.includes text "```" = false -> clean_response text = Str.trim text.
Proof.
  intros Hnone. unfold clean_response.
  assert (H3 : Str.includes (Str.trim text) "```" = false).
  { destruct (Str.includes (Str.trim text) "```") eqn:H; [|reflexivity].
    apply includes_trim in H. congruence. }
  assert (H7 : Str.includes (Str.trim text) "```json" = false).
  { destruct (Str.includes (Str.trim text) "```json") eqn:H; [|reflexivity].
    apply (includes_shorter _ "```" "json") in H. congruence. }
  rewrite (strip_fence_without _ _ H7), (strip_fence_without _ _ H3).
  apply trim_idempotent.
Qed.

Example substring0_counts_code_units :
  Str.substring0 3 "áéíóú" = "áéí" /\ Str.length "áéíóú" = 5%nat /\
  String.length "áéíóú" = 10%nat.
Proof. vm_compute. repeat split. Qed.

(** ** The inference stage *)

Lemma Qgtb_false_le (a b : Q) : Qgtb a b = false -> Qle_bool a b = true.
Proof.
  unfold Qgtb. intros H. apply Qle_bool_iff, Qle_alt.
  destruct (a ?= b)%Q; congruence.
Qed.

(** C10. The branch "too large for every model" of [getVideoDescription]
    is dead: a file of any size is either refused by the 50 MB ceiling
    or accepted by the first tier, so the filtered list of tiers is never
    empty when its length is tested. *)
Theorem no_eligible_model_unreachable (size : Z) :
  size_gate size <> NoEligibleModel /\
  (size_gate size = OverCeiling \/
   exists rest,
     availableModels (fileSizeInMB size)
       = {| name := "gemini-2.5-flash"; maxSizeMB := 50 |} :: rest /\
     size_gate size = Eligible (availableModels (fileSizeInMB size))).
Proof.
  unfold size_gate.
  destruct (Qgtb (fileSizeInMB size) (inject_Z 50)) eqn:Hceiling.
  - split; [discriminate | now left].
  - apply Qgtb_false_le in Hceiling.
    unfold availableModels, modelConfigs. cbn [List.filter maxSizeMB].
    rewrite Hceiling.
    split; [cbn; discriminate | right].
    eexists. split; [reflexivity | reflexivity].
Qed.

Section Inference.

Variable JSON_parse : string -> option Json.

(** The loop returns the answer of the first tier whose call succeeds. *)
Lemma try_models_first_answer env earlier m later text usage :
  Forall (fun c => exists msg,
            generateContent env (name c) = GenerateFailed msg) earlier ->
  generateContent env (name m) = Responded text usage ->
  try_models JSON_parse env (earlier ++ m :: later) true
    = Resolved (answer_of JSON_parse env m text usage).
Proof.
  intros Hearlier Hm.
  induction Hearlier as [|c earlier [msg Hc] _ IH]; cbn.
  - now rewrite Hm.
  - now rewrite Hc.
Qed.

(** C8. Whatever text the inference service answers with, if the
    text, once its markdown fences are stripped, does not parse as
    JSON, [getVideoDescription] still resolves: its description is the
    placeholder object tagged ["JSON parsing failed"], and the field
    [raw_response] of the placeholder carries the stripped text, cut
    after 1000 characters: its code units are the first 1000 code units
    of the stripped text, and it is the stripped text itself when that
    has no more than 1000. The stripped text of an answer without code
    fence is the answer less the white space around it. The text is an
    answer of the service when the tiers tried before it have failed. *)
Theorem parse_failure_is_not_a_failure
    env size earlier m later text usage :
  genAI env = true ->
  statSync env = Resolved size ->
  size_gate size = Eligible (earlier ++ m :: later) ->
  readFileSync env = Resolved tt ->
  Forall (fun c => exists msg,
            generateContent env (name c) = GenerateFailed msg) earlier ->
  generateContent env (name m) = Responded text usage ->
  JSON_parse (clean_response text) = None ->
  let cleaned := clean_response text in
  exists raw : string,
    getVideoDescription JSON_parse env
      = Resolved
          {| description :=
               JObj [ ("error", JStr "JSON parsing failed");
                      ("raw_response", JStr raw);
                      ("parsed_at", JStr (toISOString env)) ];
             modelUsed := name m;
             tokenUsage := {| promptTokens := count_or_0 usage promptTokenCount;
                              candidatesTokens := count_or_0 usage candidatesTokenCount;
                              totalTokens := count_or_0 usage totalTokenCount |} |} /\
    Str.units raw = take 1000 (Str.units cleaned) /\
    ((Str.length cleaned <= 1000)%nat -> raw = cleaned) /\
    (Str.includes text "```" = false ->
     exists before after : string,
       text = before ++ cleaned ++ after /\
       Str.blank before = true /\ Str.blank after = true).
Proof.
  intros Hconfigured Hstat Hgate Hread Hearlier Hm Hparse cleaned.
  exists (Str.substring0 1000 cleaned). split; [|split; [|split]].
  - unfold getVideoDescription, describe_body.
    rewrite Hconfigured, Hstat, Hgate, Hread. cbn [negb].
    rewrite (try_models_first_answer _ _ _ _ _ _ Hearlier Hm).
    unfold answer_of, normalize. now rewrite Hparse.
  - apply units_substring0.
  - apply substring0_short.
  - intros Hnone. subst cleaned. rewrite (clean_response_unfenced _ Hnone).
    apply trim_split.
Qed.

(** When the stripped text has at most 1000 characters the placeholder
    carries all of it. *)
Lemma placeholder_carries_short_text (cleaned now : string) :
  (Str.length cleaned <= 1000)%nat ->
  field "raw_response" (parse_failed cleaned now) = Some (JStr cleaned).
Proof. intros Hlen. cbn. now rewrite substring0_short. Qed.

End Inference.

Lemma parse_failure_is_not_a_failure_witness :
  exists raw : string,
    field "raw_response"
      (match getVideoDescription literal_parse gemini_second_tier with
       | Resolved result => description result
       | Rejected _ => JNull
       end) = Some (JStr raw) /\
    raw = "The video shows a cat.".
Proof.
  destruct (parse_failure_is_not_a_failure literal_parse gemini_second_tier
              (10 * 1024 * 1024)
              [ {| name := "gemini-2.5-flash"; maxSizeMB := 50 |} ]
              {| name := "gemini-2.5-pro"; maxSizeMB := 30 |} []
              "The video shows a cat." None)
    as (raw & Hresult & _ & Hshort & _).
  - reflexivity.
  - reflexivity.
  - vm_compute. reflexivity.
  - reflexivity.
  - constructor; [|constructor]. eexists. reflexivity.
  - reflexivity.
  - vm_compute. reflexivity.
  - exists raw. rewrite Hresult. split; [reflexivity|].
    rewrite Hshort; [vm_compute; reflexivity | vm_compute; lia].
Defined.

(** ** One pipeline run *)

Section Run.

Variable JSON_parse : string -> option Json.

Lemma truthy_nonempty (path : string) : path <> "" -> Str.truthy path = true.
Proof. now destruct path. Qed.

Lemma cleanup_removes (path : string) (disk : gset string) :
  path ∉ cleanupTempFile false path disk.
Proof.
  unfold cleanupTempFile. destruct (bool_decide (path ∈ disk)) eqn:E.
  - intros [_ Hnot]%elem_of_difference. apply Hnot. now apply elem_of_singleton.
  - now apply bool_decide_eq_false in E.
Qed.

Lemma cleanup_fails (path : string) (disk : gset string) :
  cleanupTempFile true path disk = disk.
Proof. unfold cleanupTempFile. now destruct (bool_decide (path ∈ disk)). Qed.

(** After [cleanupTempFile] a file that was on disk is still there
    exactly when [unlinkSync] has thrown. *)
Lemma cleanup_outcome (throws : bool) (path : string) (disk : gset string) :
  path ∈ disk ->
  path ∈ cleanupTempFile throws path disk <-> throws = true.
Proof.
  intros Hin. destruct throws.
  - rewrite cleanup_fails. now split.
  - split; [|discriminate]. intros H. now apply cleanup_removes in H.
Qed.

(** C9, amended. When the download stage of a run has returned the
    path of its temporary file, then however the run ends (inference or
    store failure, either timeout, success) its [finally] block calls
    [cleanupTempFile] on that path as its last action. Afterwards the
    file is still on disk exactly when [unlinkSync] has thrown, which
    [cleanupTempFile] catches and logs; otherwise it is gone. The same
    holds for the run of [processVideo] around it, also when its own
    timer wins the race. *)
Theorem temp_file_cleanup_always_runs (videoId : string) (env : PipelineEnv)
    (disk : gset string) (path : string) :
  downloadVideoFromDrive env = Downloaded path ->
  path <> "" ->
  let a := performVideoAnalysis JSON_parse videoId env disk in
  last (trace a) = Some (CallCleanup path) /\
  (path ∈ files a <-> unlinkSync_throws env = true) /\
  forall res headersSent,
    getVideoFromDB env = Resolved None ->
    let p := processVideo JSON_parse videoId res env headersSent disk in
    CallCleanup path ∈ effects p /\
    (path ∈ disk_after p <-> unlinkSync_throws env = true).
Proof.
  intros Hdownload Hpath a.
  assert (Hon : forall disk : gset string, path ∈ {[path]} ∪ disk).
  { intros d. apply elem_of_union. left. now apply elem_of_singleton. }
  assert (Ha : last (trace a) = Some (CallCleanup path) /\
               (path ∈ files a <-> unlinkSync_throws env = true)).
  { subst a. unfold performVideoAnalysis, analysis_finally, analysis_try.
    rewrite Hdownload.
    destruct (analysis_timer_first env); cbn [filePath].
    - rewrite (truthy_nonempty _ Hpath). cbn [trace files]. split; [reflexivity|].
      now apply cleanup_outcome.
    - destruct (getVideoDescription JSON_parse (gemini env)); cbn [filePath];
        rewrite (truthy_nonempty _ Hpath); cbn [trace files];
        (split; [reflexivity | now apply cleanup_outcome]). }
  destruct Ha as [Hlast Hdisk]. split; [exact Hlast|]. split; [exact Hdisk|].
  assert (Hcalled : CallCleanup path ∈ trace a).
  { destruct (trace a) as [|e l] eqn:Htrace using rev_ind; [discriminate|].
    rewrite last_snoc in Hlast. injection Hlast as ->.
    apply elem_of_app. right. apply list_elem_of_here. }
  intros res headersSent Hmiss p. subst p. unfold processVideo. rewrite Hmiss.
  fold a. destruct (processing_timer_first env); cbn [effects disk_after].
  - split; [now apply list_elem_of_further | exact Hdisk].
  - destruct (outcome a); cbn [effects disk_after].
    + split; [|exact Hdisk].
      apply list_elem_of_further, elem_of_app. now left.
    + split; [now apply list_elem_of_further | exact Hdisk].
Qed.

(** A run whose download loses the race against the 60 s timer has no
    path to clean: its [finally] block calls nothing, and the file that
    the abandoned download goes on writing stays on disk. *)
Lemma abandoned_download_is_not_cleaned (videoId : string) (env : PipelineEnv)
    (disk : gset string) (path : string) :
  downloadVideoFromDrive env = DownloadTimedOut (Some path) ->
  let a := performVideoAnalysis JSON_parse videoId env disk in
  outcome a = Rejected "Timeout en descarga" /\
  trace a = [CallDownload videoId] /\
  path ∈ files a.
Proof.
  intros Hdownload a. subst a.
  unfold performVideoAnalysis, analysis_finally, analysis_try.
  rewrite Hdownload. cbn. repeat split.
  apply elem_of_union. left. now apply elem_of_singleton.
Qed.

(** C7, amended. When the lookup of a run in the store returns a
    record, the run resolves without calling [downloadVideoFromDrive] or
    [getVideoDescription] and leaves the disk as it was; it answers with
    the stored record and [cached: true] unless a response has already
    been sent on its response object, in which case it sends nothing. *)
Theorem cache_hit_short_circuits (videoId : string) (res : nat)
    (env : PipelineEnv) (headersSent : bool) (disk : gset string) (row : Row) :
  getVideoFromDB env = Resolved (Some row) ->
  let p := processVideo JSON_parse videoId res env headersSent disk in
  settled p = Resolved tt /\
  disk_after p = disk /\
  List.filter is_fetch_or_infer (effects p) = [] /\
  effects p = CallGetVideoFromDB videoId
              :: (if headersSent then []
                  else [Send res 200 (cached_body JSON_parse row)]) /\
  field "cached" (cached_body JSON_parse row) = Some (JBool true) /\
  field "drive_id" (cached_body JSON_parse row) = Some (JStr (drive_id row)).
Proof.
  intros Hhit p. subst p. unfold processVideo. rewrite Hhit. cbn.
  repeat split; destruct headersSent; reflexivity.
Qed.

End Run.

Lemma temp_file_cleanup_always_runs_witness :
  let a := performVideoAnalysis literal_parse "A"
             (env_analysis_timeout "/tmp/A_1_a.mp4") ∅ in
  last (trace a) = Some (CallCleanup "/tmp/A_1_a.mp4") /\
  ("/tmp/A_1_a.mp4" ∈ files a <-> false = true).
Proof.
  destruct (temp_file_cleanup_always_runs literal_parse "A"
              (env_analysis_timeout "/tmp/A_1_a.mp4") ∅ "/tmp/A_1_a.mp4")
    as (Hlast & Hdisk & _).
  - reflexivity.
  - discriminate.
  - split; [exact Hlast | exact Hdisk].
Defined.

(** C9 as stated fails: the run below downloads its file, analyses it
    and stores the result; its [finally] block calls [cleanupTempFile],
    [unlinkSync] throws, and the file is still on disk when the run has
    ended. *)
Lemma temp_file_survives_failed_unlink :
  let env := env_unlink_fails "/tmp/A_1_a.mp4" in
  let a := performVideoAnalysis literal_parse "A" env ∅ in
  downloadVideoFromDrive env = Downloaded "/tmp/A_1_a.mp4" /\
  (exists result, outcome a = Resolved result) /\
  last (trace a) = Some (CallCleanup "/tmp/A_1_a.mp4") /\
  "/tmp/A_1_a.mp4" ∈ files a.
Proof.
  cbv zeta. split; [reflexivity|]. split; [eexists; reflexivity|].
  split; [reflexivity|]. vm_compute. reflexivity.
Qed.

(** The run below loses the race of its download against the 60 s
    timer after "/tmp/A_1_a.mp4" has been created: it ends without a
    call of [cleanupTempFile] and the file is on disk. *)
Lemma abandoned_download_example :
  let a := performVideoAnalysis literal_parse "A"
             (env_download_abandoned "/tmp/A_1_a.mp4") ∅ in
  trace a = [CallDownload "A"] /\ "/tmp/A_1_a.mp4" ∈ files a.
Proof.
  destruct (abandoned_download_is_not_cleaned literal_parse "A"
              (env_download_abandoned "/tmp/A_1_a.mp4") ∅ "/tmp/A_1_a.mp4"
              eq_refl)
    as (_ & Htrace & Hfile).
  now split.
Qed.

Lemma cache_hit_short_circuits_witness :
  effects (processVideo literal_parse "B" 4 env_cached false ∅)
    = [ CallGetVideoFromDB "B";
        Send 4 200 (JObj [ ("drive_id", JStr "B");
                           ("description", JObj []);
                           ("cached", JBool true);
                           ("tokenUsage", JNull) ]) ].
Proof.
  apply (cache_hit_short_circuits literal_parse "B" 4 env_cached false ∅ row_B).
  reflexivity.
Defined.

(** C7 as stated fails: the run of "B" in [late_cache_hit] finds the
    record in the store after the deadline of the request has answered
    408; it then sends nothing, so the caller never receives the stored
    result. *)
Lemma cache_hit_after_deadline_sends_nothing :
  getVideoFromDB env_cached = Resolved (Some row_B) /\
  effects (processVideo literal_parse "B" 4 env_cached true ∅)
    = [ CallGetVideoFromDB "B" ] /\
  let s := exec literal_parse late_cache_hit initial in
  attempts_made "B" s = 1%nat /\
  responses 4 s
    = [ (408, JObj [ ("error", JStr "Procesamiento tomó demasiado tiempo");
                     ("videoId", JStr "B");
                     ("timeout", JBool true) ]) ].
Proof. vm_compute. repeat split. Qed.

(** ** The queue *)

(** C2. A call of [add] for a [videoId] that is in the in-flight set or
    in the queue answers the new caller with 409 and does nothing else:
    no item is queued, no timer is armed, and the queue, the in-flight
    set, the retry counters, the counter of runs and the pending timers
    are what they were. *)
Theorem duplicate_is_rejected (videoId : string) (res : nat) (now : Z)
    (s : State) :
  videoId ∈ processingIds s \/
  (exists item, In item (queue s) /\ Item.videoId item = videoId) ->
  let s' := add videoId res now s in
  queue s' = queue s /\
  processingIds s' = processingIds s /\
  retryAttempts s' = retryAttempts s /\
  currentProcessing s' = currentProcessing s /\
  timers s' = timers s /\
  running s' = running s /\
  exists reason : string,
    log s' = (log s ++ [ Send res 409 (JObj [ ("error", JStr reason);
                                              ("videoId", JStr videoId) ]) ])%list.
Proof.
  intros Hdup s'. subst s'. unfold add.
  destruct (bool_decide (videoId ∈ processingIds s)) eqn:Hinflight.
  - cbn. repeat split. eexists. reflexivity.
  - assert (Hqueued : existsb (fun item => String.eqb (Item.videoId item) videoId)
                              (queue s) = true).
    { destruct Hdup as [Hin | (item & Hin & Hid)].
      - apply bool_decide_eq_false in Hinflight. contradiction.
      - apply existsb_exists. exists item. split; [assumption|].
        now apply String.eqb_eq. }
    rewrite Hqueued. cbn. repeat split. eexists. reflexivity.
Qed.

Lemma duplicate_is_rejected_witness :
  let s := add "A" 0 0 initial in
  queue (add "A" 1 5 s) = queue s.
Proof.
  apply (duplicate_is_rejected "A" 1 5 (add "A" 0 0 initial)).
  left. vm_compute. reflexivity.
Defined.

Section Scheduler.

Variable JSON_parse : string -> option Json.

Lemma removeFromQueue_counters (videoId : string) (s : State) :
  currentProcessing (removeFromQueue videoId s) = currentProcessing s /\
  running (removeFromQueue videoId s) = running s.
Proof.
  unfold removeFromQueue.
  destruct (findIndex videoId (queue s)) as [index|]; [|now split].
  destruct (queue s !! index); now split.
Qed.

Lemma on_error_counters (videoId : string) (res : nat) (message : string)
    (s : State) :
  currentProcessing (on_error videoId res message s) = currentProcessing s /\
  running (on_error videoId res message s) = running s.
Proof.
  unfold on_error.
  destruct ((default 0 (retryAttempts s !! videoId) <? maxRetries)
            && isRetryableError message); [now split|].
  destruct (headersSent _ res); now split.
Qed.

Lemma processQueue_capacity (s : State) :
  within_capacity s -> within_capacity (processQueue s).
Proof.
  intros [Hcount Hbound]. unfold processQueue.
  destruct (MAX_CONCURRENT_REQUESTS <=? currentProcessing s) eqn:Hfull;
    [now split|].
  destruct (length (queue s) =? 0)%nat; [now split|]. cbn [orb].
  destruct (List.find _ (queue s)) as [queueItem|]; [|now split].
  apply Z.leb_gt in Hfull.
  unfold within_capacity. cbn. rewrite length_app. cbn. lia.
Qed.

Lemma deadline_capacity (videoId : string) (res : nat) (s : State) :
  within_capacity s -> within_capacity (deadline videoId res s).
Proof.
  intros Hs. unfold deadline, within_capacity.
  destruct (removeFromQueue_counters videoId
              (if headersSent s res then s
               else send res 408
                      (JObj [ ("error", JStr "Procesamiento tomó demasiado tiempo");
                              ("videoId", JStr videoId);
                              ("timeout", JBool true) ]) s)) as [-> ->].
  destruct (headersSent s res); exact Hs.
Qed.

Lemma add_capacity (videoId : string) (res : nat) (now : Z) (s : State) :
  within_capacity s -> within_capacity (add videoId res now s).
Proof.
  intros Hs. unfold add.
  destruct (bool_decide (videoId ∈ processingIds s)); [exact Hs|].
  destruct (existsb _ (queue s)); [exact Hs|].
  apply processQueue_capacity. exact Hs.
Qed.

Lemma settle_capacity (run : nat) (env : PipelineEnv) (s : State) :
  within_capacity s -> within_capacity (settle JSON_parse run env s).
Proof.
  intros [Hcount Hbound]. unfold settle.
  destruct (running s !! run) as [r|] eqn:Hrun; [|now split].
  assert (Hlen : length (delete run (running s)) = (length (running s) - 1)%nat)
    by (apply length_delete; eauto).
  assert (Hpos : (0 < length (running s))%nat)
    by (apply lookup_lt_Some in Hrun; lia).
  unfold on_finally, within_capacity. cbn [currentProcessing running setTimeout set_timers].
  match goal with
  | |- context [removeFromQueue ?v ?t] =>
      destruct (removeFromQueue_counters v t) as [-> ->]
  end.
  cbn [currentProcessing running set_currentProcessing].
  destruct (settled _) as [|message].
  - cbn. rewrite Hlen. lia.
  - match goal with
    | |- context [on_error ?v ?r ?m ?t] =>
        destruct (on_error_counters v r m t) as [-> ->]
    end.
    cbn. rewrite Hlen. lia.
Qed.

Lemma fire_capacity (timer : nat) (s : State) :
  within_capacity s -> within_capacity (fire timer s).
Proof.
  intros Hs. unfold fire.
  destruct (timers s !! timer) as [t|]; [|exact Hs].
  destruct (callback t).
  - apply deadline_capacity. exact Hs.
  - apply processQueue_capacity. exact Hs.
  - apply processQueue_capacity. exact Hs.
Qed.

Lemma step_capacity (e : Event) (s : State) :
  within_capacity s -> within_capacity (step JSON_parse e s).
Proof.
  intros Hs. destruct e; cbn [step].
  - unfold post. destruct (negb (Str.truthy videoId)); [exact Hs|].
    now apply add_capacity.
  - now apply processQueue_capacity.
  - now apply fire_capacity.
  - now apply settle_capacity.
  - unfold socket_timeout. destruct (headersSent s res); exact Hs.
Qed.

Lemma exec_capacity (events : list Event) (s : State) :
  within_capacity s -> within_capacity (exec JSON_parse events s).
Proof.
  revert s. induction events as [|e events IH]; intros s Hs; [exact Hs|].
  cbn. apply IH. now apply step_capacity.
Qed.

(** C3. After any sequence of requests, ticks, timers, settling runs
    and socket timeouts from the initial state, [currentProcessing] is
    the number of calls of [processVideo] that have not settled, and it
    is at most [MAX_CONCURRENT_REQUESTS], which is 2. *)
Theorem concurrency_is_bounded (events : list Event) :
  let s := exec JSON_parse events initial in
  currentProcessing s = Z.of_nat (length (running s)) /\
  0 <= currentProcessing s <= 2.
Proof.
  apply (exec_capacity events initial).
  split; [reflexivity | unfold MAX_CONCURRENT_REQUESTS; cbn [currentProcessing initial]; lia].
Qed.

(** The two branches of the [catch] block. With attempts left and a
    retryable error, the counter is incremented, a wake-up is armed after
    a delay that doubles with the attempt, and nothing is sent. *)
Lemma on_error_retries (videoId : string) (res : nat) (message : string)
    (s : State) :
  let attempts := default 0 (retryAttempts s !! videoId) in
  0 <= attempts < maxRetries ->
  isRetryableError message = true ->
  let s' := on_error videoId res message s in
  retryAttempts s' !! videoId = Some (attempts + 1) /\
  timers s' !! nextTimer s
    = Some {| callback := Retry videoId; delay := 5000 * 2 ^ attempts |} /\
  log s' = log s /\
  queue s' = queue s.
Proof.
  intros attempts Hrange Hretryable s'. subst s'. unfold on_error.
  fold attempts. rewrite Hretryable.
  destruct (attempts <? maxRetries) eqn:Hlt;
    [|apply Z.ltb_ge in Hlt; lia].
  cbn. rewrite !lookup_insert_eq.
  assert (Hdelay : 5000 * (attempts + 1) = 5000 * 2 ^ attempts).
  { unfold maxRetries in Hrange.
    assert (attempts = 0 \/ attempts = 1) as [-> | ->] by lia; reflexivity. }
  rewrite Hdelay. now repeat split.
Qed.

(** Otherwise the counter is deleted and, unless a response has been
    sent already, the caller receives a 500 that reports one attempt more
    than the counter held. *)
Lemma on_error_gives_up (videoId : string) (res : nat) (message : string)
    (s : State) :
  let attempts := default 0 (retryAttempts s !! videoId) in
  maxRetries <= attempts \/ isRetryableError message = false ->
  let s' := on_error videoId res message s in
  retryAttempts s' !! videoId = None /\
  (headersSent s res = true -> log s' = log s) /\
  (headersSent s res = false ->
   exists text : string,
     log s' = (log s ++ [ Send res 500
                            (JObj [ ("error", JStr text);
                                    ("videoId", JStr videoId);
                                    ("attempts", JNum (attempts + 1)) ]) ])%list).
Proof.
  intros attempts Hstop s'. subst s'. unfold on_error. fold attempts.
  assert (Hcond : (attempts <? maxRetries) && isRetryableError message = false).
  { destruct Hstop as [Hfull | ->]; [|apply andb_false_r].
    apply andb_false_iff. left. now apply Z.ltb_ge. }
  rewrite Hcond.
  change (headersSent (set_retryAttempts (delete videoId (retryAttempts s)) s) res)
    with (headersSent s res).
  destruct (headersSent s res); cbn.
  - rewrite lookup_delete_eq. split; [reflexivity|]. split; [reflexivity|].
    discriminate.
  - rewrite lookup_delete_eq. split; [reflexivity|]. split; [discriminate|].
    intros _. eexists. reflexivity.
Qed.

Lemma removeFromQueue_others (videoId : string) (s : State) :
  retryAttempts (removeFromQueue videoId s) = retryAttempts s /\
  log (removeFromQueue videoId s) = log s /\
  disk (removeFromQueue videoId s) = disk s.
Proof.
  unfold removeFromQueue.
  destruct (findIndex videoId (queue s)) as [index|]; [|now repeat split].
  destruct (queue s !! index); now repeat split.
Qed.

(** A run that resolves leaves the retry counters as they are. *)
Lemma settle_success_keeps_counters (run : nat) (env : PipelineEnv)
    (s : State) (r : Run) :
  running s !! run = Some r ->
  settled (processVideo JSON_parse (run_videoId r) (run_res r) env
             (headersSent s (run_res r)) (disk s)) = Resolved tt ->
  retryAttempts (settle JSON_parse run env s) = retryAttempts s.
Proof.
  intros Hrun Hok. unfold settle. rewrite Hrun. cbv zeta.
  change (headersSent (set_running (delete run (running s)) s) (run_res r))
    with (headersSent s (run_res r)).
  change (disk (set_running (delete run (running s)) s)) with (disk s).
  rewrite Hok. unfold on_finally. cbn [retryAttempts setTimeout set_timers].
  match goal with
  | |- context [removeFromQueue ?v ?t] =>
      destruct (removeFromQueue_others v t) as (-> & _ & _)
  end.
  reflexivity.
Qed.

Lemma no_deadline_spec (s : State) :
  no_deadline s = true <->
  forall k t, timers s !! k = Some t ->
              match callback t with Deadline _ _ => False | _ => True end.
Proof.
  unfold no_deadline. rewrite forallb_forall. split.
  - intros H k t Hk.
    specialize (H (k, t)). cbn in H.
    destruct (callback t); try exact I.
    assert (false = true); [|discriminate].
    apply H, list_elem_of_In, elem_of_map_to_list. exact Hk.
  - intros H [k t] Hin. cbn.
    apply list_elem_of_In, elem_of_map_to_list in Hin.
    specialize (H k t Hin). now destruct (callback t).
Qed.

Lemma processQueue_empty (s : State) : queue s = [] -> processQueue s = s.
Proof.
  intros Hq. unfold processQueue. rewrite Hq. cbn.
  now rewrite orb_true_r.
Qed.

(** An idle server stays idle, and writes nothing, as long as no new
    request arrives. *)
Lemma idle_step (e : Event) (s : State) :
  internal e = true -> idle s ->
  idle (step JSON_parse e s) /\
  log (step JSON_parse e s) = log s /\
  retryAttempts (step JSON_parse e s) = retryAttempts s.
Proof.
  intros He (Hq & Hr & Hd). destruct e; try discriminate; cbn [step].
  - rewrite (processQueue_empty s Hq). now repeat split.
  - unfold fire. destruct (timers s !! timer) as [t|] eqn:Ht;
      [|now repeat split].
    assert (Hd' : no_deadline (clearTimeout timer s) = true).
    { apply no_deadline_spec. intros k t' Hk. cbn in Hk.
      apply lookup_delete_Some in Hk as [_ Hk].
      exact (proj1 (no_deadline_spec s) Hd k t' Hk). }
    pose proof (proj1 (no_deadline_spec s) Hd timer t Ht) as Hcb.
    destruct (callback t); [contradiction| |].
    + rewrite processQueue_empty by exact Hq. now repeat split.
    + rewrite processQueue_empty by exact Hq. now repeat split.
  - unfold settle. rewrite Hr. cbn. now repeat split.
Qed.

Lemma idle_exec (events : list Event) (s : State) :
  idle s ->
  let s' := exec JSON_parse (List.filter internal events) s in
  idle s' /\ log s' = log s /\ retryAttempts s' = retryAttempts s.
Proof.
  revert s. induction events as [|e events IH]; intros s Hs.
  - cbn. split; [exact Hs | split; reflexivity].
  - cbn [List.filter]. destruct (internal e) eqn:He; [|now apply IH].
    change (exec JSON_parse (e :: List.filter internal events) s)
      with (exec JSON_parse (List.filter internal events) (step JSON_parse e s)).
    destruct (idle_step e s He Hs) as (Hs' & Hlog & Hretry).
    destruct (IH _ Hs') as (Hidle & Hlog' & Hretry').
    split; [exact Hidle | split].
    + now rewrite <- Hlog.
    + now rewrite <- Hretry.
Qed.

End Scheduler.

Lemma exec_app (parse : string -> option Json) (first rest : list Event)
    (s : State) :
  exec parse (first ++ rest) s = exec parse rest (exec parse first s).
Proof. unfold exec. apply fold_left_app. Qed.

(** ** Delivery: no response object is answered twice *)

Section Delivery.

Variable JSON_parse : string -> option Json.

Lemma sends_to_app (res : nat) (l1 l2 : list Effect) :
  sends_to res (l1 ++ l2) = (sends_to res l1 ++ sends_to res l2)%list.
Proof. apply omap_app. Qed.

Lemma headersSent_false (s : State) (res : nat) :
  headersSent s res = false <-> responses res s = [].
Proof.
  unfold headersSent, responses, sends_to.
  induction (log s) as [|e l IH]; [now split|].
  cbn. destruct e; cbn; try exact IH.
  destruct (Nat.eqb res0 res); cbn; [now split | exact IH].
Qed.

Lemma first_or_none_refl (res : nat) (s : State) : first_or_none res s s.
Proof. now left. Qed.

Lemma first_or_none_trans (res : nat) (s1 s2 s3 : State) :
  first_or_none res s1 s2 -> first_or_none res s2 s3 -> first_or_none res s1 s3.
Proof.
  intros [H12 | (H1 & r & H2)] [H23 | (H2' & r' & H3)].
  - left. congruence.
  - right. split; [congruence | eauto].
  - right. split; [assumption | exists r; congruence].
  - rewrite H2 in H2'. discriminate.
Qed.

Lemma first_or_none_same_log (res : nat) (s s' : State) :
  log s' = log s -> first_or_none res s s'.
Proof. intros H. left. unfold responses. now rewrite H. Qed.

(** A guarded [send] writes a first response; any [send] leaves the
    other response objects alone. *)
Lemma send_guarded (res r : nat) (status : Z) (body : Json) (s : State) :
  first_or_none res s (if headersSent s r then s else send r status body s).
Proof.
  destruct (headersSent s r) eqn:Hsent; [apply first_or_none_refl|].
  unfold first_or_none, responses, send. cbn [log set_world].
  rewrite sends_to_app. cbn.
  destruct (Nat.eqb r res) eqn:Hr; cbn.
  - apply Nat.eqb_eq in Hr. subst r. apply headersSent_false in Hsent.
    unfold responses in Hsent. rewrite Hsent. right. split; [reflexivity|eauto].
  - left. apply app_nil_r.
Qed.

Lemma send_elsewhere (res r : nat) (status : Z) (body : Json) (s : State) :
  r <> res -> first_or_none res s (send r status body s).
Proof.
  intros Hr. left. unfold responses, send. cbn [log set_world].
  rewrite sends_to_app. cbn.
  apply Nat.eqb_neq in Hr. rewrite Hr. apply app_nil_r.
Qed.

Lemma processQueue_log (s : State) : log (processQueue s) = log s.
Proof.
  unfold processQueue.
  destruct (_ || _); [reflexivity|].
  now destruct (List.find _ (queue s)).
Qed.

Lemma removeFromQueue_silent (res : nat) (videoId : string) (s : State) :
  first_or_none res s (removeFromQueue videoId s).
Proof.
  apply first_or_none_same_log. apply (removeFromQueue_others videoId s).
Qed.

Lemma on_error_first_or_none (res : nat) (videoId : string) (r : nat)
    (message : string) (s : State) :
  first_or_none res s (on_error videoId r message s).
Proof.
  unfold on_error.
  destruct (_ && _); [now apply first_or_none_same_log|].
  apply (first_or_none_trans res s
           (set_retryAttempts (delete videoId (retryAttempts s)) s)).
  - now apply first_or_none_same_log.
  - apply send_guarded.
Qed.

(** [performVideoAnalysis] writes on no response object. *)
Lemma analysis_sends_nothing (res : nat) (videoId : string)
    (env : PipelineEnv) (disk : gset string) :
  sends_to res (trace (performVideoAnalysis JSON_parse videoId env disk)) = [].
Proof.
  unfold performVideoAnalysis, analysis_finally, analysis_try.
  destruct (downloadVideoFromDrive env); try reflexivity.
  destruct (analysis_timer_first env); cbn [filePath].
  - now destruct (Str.truthy filePath0).
  - destruct (getVideoDescription JSON_parse (gemini env)); cbn [filePath];
      now destruct (Str.truthy filePath0).
Qed.

(** A run writes at most one response, on its own response object and
    only if none was sent; a run that rejects writes none. *)
Lemma processVideo_sends (res : nat) (videoId : string) (r : nat)
    (env : PipelineEnv) (sent : bool) (disk : gset string) :
  let p := processVideo JSON_parse videoId r env sent disk in
  sends_to res (effects p) = [] \/
  (r = res /\ sent = false /\ settled p = Resolved tt /\
   exists x, sends_to res (effects p) = [x]).
Proof.
  unfold processVideo.
  destruct (getVideoFromDB env) as [[existingVideo|]|message]; cbn zeta.
  - cbn [effects settled]. unfold reply. destruct sent; [now left|].
    cbn. destruct (Nat.eqb r res) eqn:Hr; [|now left].
    apply Nat.eqb_eq in Hr. right. repeat split; eauto.
  - pose proof (analysis_sends_nothing res videoId env disk) as Htrace.
    destruct (processing_timer_first env); cbn [effects settled].
    + left. cbn. exact Htrace.
    + destruct (outcome _); cbn [effects settled].
      * change (sends_to res (CallGetVideoFromDB videoId :: ?l))
          with (sends_to res l).
        rewrite sends_to_app, Htrace. unfold reply.
        destruct sent; [now left|].
        cbn. destruct (Nat.eqb r res) eqn:Hr; [|now left].
        apply Nat.eqb_eq in Hr. right. repeat split; eauto.
      * left. cbn. exact Htrace.
  - now left.
Qed.

Lemma settle_first_or_none (res run : nat) (env : PipelineEnv) (s : State) :
  first_or_none res s (settle JSON_parse run env s).
Proof.
  unfold settle. destruct (running s !! run) as [r|]; [|apply first_or_none_refl].
  cbv zeta.
  set (s0 := set_running (delete run (running s)) s).
  set (p := processVideo JSON_parse (run_videoId r) (run_res r) env
              (headersSent s0 (run_res r)) (disk s0)).
  set (s1 := set_world (log s0 ++ effects p) (disk_after p) s0).
  assert (H01 : first_or_none res s s1 /\
                (settled p = Resolved tt \/ responses res s1 = responses res s)).
  { unfold first_or_none, responses. subst s1. cbn [log set_world set_running s0].
    rewrite sends_to_app.
    destruct (processVideo_sends res (run_videoId r) (run_res r) env
                (headersSent s0 (run_res r)) (disk s0))
      as [Hnone | (Hr & Hsent & Hok & x & Hx)]; fold p in Hnone || fold p in Hx.
    - rewrite Hnone, app_nil_r. split; [now left | now right].
    - fold p in Hok. split; [|now left]. right.
      apply (headersSent_false s0) in Hsent. subst res.
      unfold responses in Hsent. cbn [log set_running s0] in Hsent.
      rewrite Hsent, Hx. split; [reflexivity | eauto]. }
  destruct H01 as [H01 Hcases].
  unfold on_finally.
  match goal with
  | |- first_or_none res s (setTimeout _ _ (removeFromQueue _ ?t)) =>
      apply (first_or_none_trans res s t)
  end.
  - match goal with
    | |- first_or_none res s (set_currentProcessing _ ?t) =>
        apply (first_or_none_trans res s t); [|now apply first_or_none_same_log]
    end.
    destruct (settled p) as [[]|message] eqn:Hp; [exact H01|].
    destruct Hcases as [Hok | Hsame]; [discriminate|].
    apply (first_or_none_trans res s s1); [exact H01|].
    apply on_error_first_or_none.
  - match goal with
    | |- first_or_none res ?t (setTimeout _ _ (removeFromQueue ?v ?t)) =>
        apply (first_or_none_trans res t (removeFromQueue v t));
          [apply removeFromQueue_silent | now apply first_or_none_same_log]
    end.
Qed.

Lemma fire_first_or_none (res timer : nat) (s : State) :
  first_or_none res s (fire timer s).
Proof.
  unfold fire. destruct (timers s !! timer) as [t|]; [|apply first_or_none_refl].
  apply (first_or_none_trans res s (clearTimeout timer s));
    [now apply first_or_none_same_log|].
  destruct (callback t).
  - unfold deadline.
    match goal with
    | |- first_or_none res ?a (removeFromQueue ?v ?b) =>
        apply (first_or_none_trans res a b);
          [apply send_guarded | apply removeFromQueue_silent]
    end.
  - apply first_or_none_same_log. now rewrite processQueue_log.
  - apply first_or_none_same_log. now rewrite processQueue_log.
Qed.

Lemma add_first_or_none (res : nat) (videoId : string) (r : nat) (now : Z)
    (s : State) :
  r <> res -> first_or_none res s (add videoId r now s).
Proof.
  intros Hr. unfold add.
  destruct (bool_decide _); [now apply send_elsewhere|].
  destruct (existsb _ _); [now apply send_elsewhere|].
  apply first_or_none_same_log. now rewrite processQueue_log.
Qed.

(** Every event other than a request that hands over [res] itself
    leaves [res] alone or writes its first response. *)
Lemma step_first_or_none (res : nat) (e : Event) (s : State) :
  handed_over e <> Some res -> first_or_none res s (step JSON_parse e s).
Proof.
  intros He. destruct e; cbn [step].
  - assert (res0 <> res) by (intros ->; now apply He).
    unfold post. destruct (negb _); [now apply send_elsewhere|].
    now apply add_first_or_none.
  - apply first_or_none_same_log. apply processQueue_log.
  - apply fire_first_or_none.
  - apply settle_first_or_none.
  - unfold socket_timeout. apply send_guarded.
Qed.


End Delivery.

(** ** Delivery: every accepted request is answered exactly once *)

Section ExactlyOnce.

Variable JSON_parse : string -> option Json.


















End ExactlyOnce.

(** ** Retries: what the queue does after a retryable failure *)

Lemma one_retryable_failure_idle :
  idle (exec literal_parse one_retryable_failure initial).
Proof. vm_compute. repeat split. Qed.

Lemma failure_then_success_idle :
  idle (exec literal_parse failure_then_success initial).
Proof. vm_compute. repeat split. Qed.


(** The request for "A" is accepted and its run fails with a retryable
    error. The queue drops the item and its deadline timer (see C4), so
    none of the responses of the queue is written; the one answer on the
    response object is the 408 of the timeout middleware. *)
Lemma retryable_failure_is_answered_by_the_socket_timeout :
  let s := exec literal_parse one_retryable_failure initial in
  responses 0 s = [] /\
  timers s !! 0%nat = None /\
  responses 0 (exec literal_parse [ Fire 2; Fire 1; Tick; SocketTimeout 0 ] s)
    = [ (408, JObj [ ("error", JStr "Timeout de servidor");
                     ("timeout", JNum 270) ]) ].
Proof.
  cbv zeta. split; [vm_compute; reflexivity|].
  split; [vm_compute; reflexivity | vm_compute; reflexivity].
Qed.

(** C4 (a retryable failure re-queues the job for another attempt) does
    not hold. After the first run of "A" has failed with a retryable
    error the counter of "A" is 1 and a wake-up is armed after
    5000 ms = 5000 * 2^0, but the item has left the queue: whatever ticks
    and timers follow, the pipeline is not started a second time. *)
Theorem retry_is_counted_but_never_run (events : list Event) :
  let s := exec literal_parse one_retryable_failure initial in
  retryAttempts s !! "A" = Some 1 /\
  timers s !! 1%nat = Some {| callback := Retry "A"; delay := 5000 * 2 ^ 0 |} /\
  queue s = [] /\
  running s = [] /\
  attempts_made "A" (exec literal_parse (List.filter internal events) s) = 1%nat.
Proof.
  intros s.
  destruct (idle_exec literal_parse events s one_retryable_failure_idle)
    as (_ & Hlog & _).
  split; [vm_compute; reflexivity|].
  split; [vm_compute; reflexivity|].
  split; [vm_compute; reflexivity|].
  split; [vm_compute; reflexivity|].
  unfold attempts_made. cbv zeta in Hlog. rewrite Hlog. vm_compute. reflexivity.
Qed.

(** C5 (a job that always fails retryably ends with a 500 reporting 3
    attempts) does not hold for a request. With every run failing with a
    retryable error, the request for "A" is tried once and the queue
    never answers it. The 500 with [attempts: 3] is only produced when
    the same [videoId] is requested three times: the counter outlives
    the requests, the third one is answered and the first two are not. *)
Theorem exhaustion_takes_three_requests (events : list Event) :
  (let s := exec literal_parse
              (one_retryable_failure ++ List.filter internal events) initial in
   attempts_made "A" s = 1%nat /\ responses 0 s = []) /\
  (let s := exec literal_parse three_requests_failing initial in
   attempts_made "A" s = 3%nat /\
   responses 0 s = [] /\
   responses 1 s = [] /\
   responses 2 s
     = [ (500, JObj [ ("error",
                       JStr "Error procesando video después de 3 intentos: Timeout en descarga");
                      ("videoId", JStr "A");
                      ("attempts", JNum 3) ]) ]).
Proof.
  split.
  - rewrite exec_app.
    destruct (idle_exec literal_parse events _ one_retryable_failure_idle)
      as (_ & Hlog & _).
    cbv zeta in Hlog. unfold attempts_made, responses. rewrite Hlog.
    vm_compute. split; reflexivity.
  - vm_compute. repeat split.
Qed.

(** C6 (the retry counter of a job is deleted when the job succeeds)
    does not hold. The first request for "A" fails with a retryable
    error, the second one succeeds and is answered 200; the entry of "A"
    in [retryAttempts] is still 1 afterwards and stays so whatever ticks
    and timers follow. *)
Theorem retry_counter_survives_success (events : list Event) :
  let s := exec literal_parse failure_then_success initial in
  (exists body, responses 1 s = [ (200, body) ] /\
                field "cached" body = Some (JBool false)) /\
  retryAttempts s !! "A" = Some 1 /\
  retryAttempts (exec literal_parse (List.filter internal events) s) !! "A"
    = Some 1.
Proof.
  intros s.
  destruct (idle_exec literal_parse events s failure_then_success_idle)
    as (_ & _ & Hretry).
  split; [eexists; split; vm_compute; reflexivity|].
  split; [vm_compute; reflexivity|].
  cbv zeta in Hretry. rewrite Hretry. vm_compute. reflexivity.
Qed.

(** ** Invariants of the queue *)

Section Invariants.

Variable JSON_parse : string -> option Json.

Lemma findIndex_Some (videoId : string) (q : list Item.t) (i : nat) :
  findIndex videoId q = Some i ->
  exists item, q !! i = Some item /\ Item.videoId item = videoId /\
               forall j other, (j < i)%nat -> q !! j = Some other ->
                               Item.videoId other <> videoId.
Proof.
  revert i. induction q as [|item q IH]; intros i H; [discriminate|].
  cbn in H. destruct (String.eqb (Item.videoId item) videoId) eqn:Heq.
  - injection H as <-. exists item. apply String.eqb_eq in Heq.
    repeat split; [assumption|]. intros j other Hj. lia.
  - destruct (findIndex videoId q) as [i'|] eqn:Hi; [|discriminate].
    injection H as <-. destruct (IH i' eq_refl) as (found & Hfound & Hid & Hfirst).
    exists found. repeat split; [assumption..|].
    intros [|j] other Hj Hother.
    + injection Hother as <-. now apply String.eqb_neq in Heq.
    + apply (Hfirst j other); [lia | assumption].
Qed.

Lemma findIndex_None (videoId : string) (q : list Item.t) :
  findIndex videoId q = None ->
  forall item, item ∈ q -> Item.videoId item <> videoId.
Proof.
  induction q as [|first q IH]; intros H item Hin; [inversion Hin|].
  cbn in H. destruct (String.eqb (Item.videoId first) videoId) eqn:Heq;
    [discriminate|].
  destruct (findIndex videoId q); [discriminate|].
  apply elem_of_cons in Hin as [-> | Hin].
  - now apply String.eqb_neq.
  - now apply IH.
Qed.

(** What [removeFromQueue] does to each part of the state. *)
Lemma removeFromQueue_queue (videoId : string) (s : State) :
  queue (removeFromQueue videoId s)
    = match findIndex videoId (queue s) with
      | Some index => delete index (queue s)
      | None => queue s
      end.
Proof.
  unfold removeFromQueue.
  destruct (findIndex videoId (queue s)) as [index|] eqn:Hindex; [|reflexivity].
  destruct (findIndex_Some _ _ _ Hindex) as (item & -> & _). reflexivity.
Qed.

Lemma removeFromQueue_timers (videoId : string) (s : State) :
  timers (removeFromQueue videoId s)
    = match findIndex videoId (queue s) with
      | Some index =>
          match queue s !! index with
          | Some item => delete (Item.timeout item) (timers s)
          | None => timers s
          end
      | None => timers s
      end /\
  nextTimer (removeFromQueue videoId s) = nextTimer s.
Proof.
  unfold removeFromQueue.
  destruct (findIndex videoId (queue s)) as [index|]; [|now split].
  destruct (queue s !! index); now split.
Qed.

Lemma removeFromQueue_processingIds (videoId : string) (s : State) :
  processingIds (removeFromQueue videoId s) = processingIds s ∖ {[videoId]}.
Proof.
  unfold removeFromQueue.
  destruct (findIndex videoId (queue s)) as [index|]; [|reflexivity].
  now destruct (queue s !! index).
Qed.

(** [removeFromQueue] only takes items out. *)
Lemma removeFromQueue_sublist (videoId : string) (s : State) :
  queue (removeFromQueue videoId s) `sublist_of` queue s.
Proof.
  rewrite removeFromQueue_queue.
  destruct (findIndex videoId (queue s)); [apply sublist_delete | reflexivity].
Qed.

Lemma processQueue_parts (s : State) :
  queue (processQueue s) = queue s /\
  timers (processQueue s) = timers s /\
  nextTimer (processQueue s) = nextTimer s /\
  retryAttempts (processQueue s) = retryAttempts s.
Proof.
  unfold processQueue. destruct (_ || _); [now repeat split|].
  destruct (List.find _ (queue s)); now repeat split.
Qed.

Lemma on_error_queue (videoId : string) (res : nat) (message : string)
    (s : State) :
  queue (on_error videoId res message s) = queue s /\
  processingIds (on_error videoId res message s) = processingIds s.
Proof.
  unfold on_error. destruct (_ && _); [now split|].
  destruct (headersSent _ res); now split.
Qed.

(** *** Queued ids are distinct *)

Lemma ids_distinct_sublist (s s' : State) :
  queue s' `sublist_of` queue s -> ids_distinct s -> ids_distinct s'.
Proof.
  unfold ids_distinct. intros Hsub Hs.
  apply (sublist_NoDup _ (Item.videoId <$> queue s)); [assumption|].
  now apply fmap_sublist.
Qed.

Lemma ids_distinct_same (s s' : State) :
  queue s' = queue s -> ids_distinct s -> ids_distinct s'.
Proof. unfold ids_distinct. now intros ->. Qed.

Lemma add_ids_distinct (videoId : string) (res : nat) (now : Z) (s : State) :
  ids_distinct s -> ids_distinct (add videoId res now s).
Proof.
  intros Hs. unfold add.
  destruct (bool_decide _); [exact Hs|].
  destruct (existsb _ (queue s)) eqn:Hqueued; [exact Hs|].
  apply (ids_distinct_same
           (set_queue (queue s ++ [ {| Item.videoId := videoId; Item.res := res;
                                       Item.timestamp := now;
                                       Item.timeout := nextTimer s |} ])
                      (setTimeout (Deadline videoId res) HTTP_TIMEOUT s)));
    [apply processQueue_parts|].
  unfold ids_distinct. cbn [queue set_queue]. rewrite fmap_app.
  apply NoDup_app. split; [exact Hs|]. split; [|apply NoDup_singleton].
  intros v Hv Hnew. cbn in Hnew. apply list_elem_of_singleton in Hnew. subst v.
  apply list_elem_of_fmap in Hv as (item & Hid & Hin).
  assert (existsb (fun item => String.eqb (Item.videoId item) videoId) (queue s)
          = true); [|congruence].
  apply existsb_exists. exists item. split; [now apply list_elem_of_In|].
  apply String.eqb_eq. now symmetry.
Qed.

Lemma settle_queue_sublist (run : nat) (env : PipelineEnv) (s : State) :
  queue (settle JSON_parse run env s) `sublist_of` queue s.
Proof.
  unfold settle. destruct (running s !! run) as [r|]; [|reflexivity].
  cbv zeta. unfold on_finally. cbn [queue setTimeout set_timers].
  etransitivity; [apply removeFromQueue_sublist|].
  cbn [queue set_currentProcessing].
  destruct (settled _); [reflexivity|].
  now rewrite (proj1 (on_error_queue _ _ _ _)).
Qed.

Lemma fire_queue_sublist (timer : nat) (s : State) :
  queue (fire timer s) `sublist_of` queue s.
Proof.
  unfold fire. destruct (timers s !! timer) as [t|]; [|reflexivity].
  destruct (callback t).
  - unfold deadline. etransitivity; [apply removeFromQueue_sublist|].
    now destruct (headersSent _ res).
  - now rewrite (proj1 (processQueue_parts _)).
  - now rewrite (proj1 (processQueue_parts _)).
Qed.

Lemma step_ids_distinct (e : Event) (s : State) :
  ids_distinct s -> ids_distinct (step JSON_parse e s).
Proof.
  intros Hs. destruct e; cbn [step].
  - unfold post. destruct (negb _); [exact Hs | now apply add_ids_distinct].
  - apply (ids_distinct_same s); [apply processQueue_parts | exact Hs].
  - apply (ids_distinct_sublist s); [apply fire_queue_sublist | exact Hs].
  - apply (ids_distinct_sublist s); [apply settle_queue_sublist | exact Hs].
  - unfold socket_timeout. now destruct (headersSent s res).
Qed.

(** X1. Whatever requests, ticks, timers, settling runs and socket
    timeouts have occurred, no two items of the queue carry the same
    [videoId]. *)
Theorem queued_ids_are_distinct (events : list Event) :
  NoDup (Item.videoId <$> queue (exec JSON_parse events initial)).
Proof.
  change (ids_distinct (exec JSON_parse events initial)).
  assert (H : forall s, ids_distinct s -> ids_distinct (exec JSON_parse events s)).
  { induction events as [|e events IH]; intros s Hs; [exact Hs|].
    apply (IH (step JSON_parse e s)). now apply step_ids_distinct. }
  apply H. apply NoDup_nil_2.
Qed.

(** *** In-flight ids have runs *)

Lemma processQueue_inflight (s : State) :
  inflight_have_runs s -> inflight_have_runs (processQueue s).
Proof.
  intros Hs. unfold processQueue. destruct (_ || _); [exact Hs|].
  destruct (List.find _ (queue s)) as [queueItem|]; [|exact Hs].
  intros v Hv. cbn in Hv |- *.
  apply elem_of_union in Hv as [Hv | Hv].
  - apply elem_of_singleton in Hv. subst v.
    eexists. split; [apply elem_of_app; right; apply list_elem_of_here|].
    reflexivity.
  - destruct (Hs v Hv) as (r & Hr & Hid).
    exists r. split; [apply elem_of_app; now left | exact Hid].
Qed.

Lemma inflight_shrink (s s' : State) :
  processingIds s' ⊆ processingIds s -> running s' = running s ->
  inflight_have_runs s -> inflight_have_runs s'.
Proof.
  intros Hids Hrun Hs v Hv. rewrite Hrun. apply Hs. now apply Hids.
Qed.

Lemma removeFromQueue_inflight (videoId : string) (s : State) :
  inflight_have_runs s -> inflight_have_runs (removeFromQueue videoId s).
Proof.
  apply inflight_shrink.
  - rewrite removeFromQueue_processingIds.
    intros v Hv. now apply elem_of_difference in Hv.
  - apply removeFromQueue_counters.
Qed.

Lemma settle_parts (run : nat) (env : PipelineEnv) (s : State) (r : Run) :
  running s !! run = Some r ->
  processingIds (settle JSON_parse run env s)
    = processingIds s ∖ {[run_videoId r]} /\
  running (settle JSON_parse run env s) = delete run (running s) /\
  currentProcessing (settle JSON_parse run env s) = currentProcessing s - 1.
Proof.
  intros Hrun. unfold settle. rewrite Hrun. cbv zeta. unfold on_finally.
  cbn [processingIds running currentProcessing setTimeout set_timers].
  rewrite removeFromQueue_processingIds.
  match goal with
  | |- context [removeFromQueue ?v ?t] =>
      destruct (removeFromQueue_counters v t) as [-> ->]
  end.
  cbn [processingIds running currentProcessing set_currentProcessing].
  destruct (settled _) as [|message]; [now repeat split|].
  match goal with
  | |- context [on_error ?v ?x ?m ?t] =>
      destruct (on_error_counters v x m t) as [-> ->];
      destruct (on_error_queue v x m t) as [_ ->]
  end.
  now repeat split.
Qed.

Lemma elem_of_delete_other {A : Type} (l : list A) (i : nat) (x y : A) :
  l !! i = Some y -> x ∈ l -> x <> y -> x ∈ delete i l.
Proof.
  intros Hi Hx Hne. apply list_elem_of_lookup in Hx as [j Hj].
  assert (j <> i) by (intros ->; congruence).
  apply list_elem_of_lookup.
  destruct (decide (j < i)%nat).
  - exists j. now rewrite list_lookup_delete_lt.
  - exists (pred j). rewrite list_lookup_delete_ge by lia.
    replace (S (pred j)) with j by lia. exact Hj.
Qed.

Lemma settle_inflight (run : nat) (env : PipelineEnv) (s : State) :
  inflight_have_runs s -> inflight_have_runs (settle JSON_parse run env s).
Proof.
  intros Hs. destruct (running s !! run) as [r|] eqn:Hrun.
  - destruct (settle_parts run env s r Hrun) as (Hids & Hrunning & _).
    intros v Hv. rewrite Hids in Hv. rewrite Hrunning.
    apply elem_of_difference in Hv as [Hv Hne].
    destruct (Hs v Hv) as (r' & Hr' & Hid).
    exists r'. split; [|exact Hid].
    apply (elem_of_delete_other _ _ _ r); [assumption..|].
    intros ->. apply Hne. now apply elem_of_singleton.
  - unfold settle. now rewrite Hrun.
Qed.

Lemma step_inflight (e : Event) (s : State) :
  inflight_have_runs s -> inflight_have_runs (step JSON_parse e s).
Proof.
  intros Hs. destruct e; cbn [step].
  - unfold post. destruct (negb _); [exact Hs|].
    unfold add. destruct (bool_decide _); [exact Hs|].
    destruct (existsb _ _); [exact Hs|].
    apply processQueue_inflight. exact Hs.
  - now apply processQueue_inflight.
  - unfold fire. destruct (timers s !! timer) as [t|]; [|exact Hs].
    destruct (callback t).
    + unfold deadline. apply removeFromQueue_inflight.
      now destruct (headersSent _ res).
    + apply processQueue_inflight.
      apply (inflight_shrink s); [|reflexivity | exact Hs].
      intros w Hw. cbn in Hw. now apply elem_of_difference in Hw.
    + apply processQueue_inflight. exact Hs.
  - now apply settle_inflight.
  - unfold socket_timeout. now destruct (headersSent s res).
Qed.

Lemma exec_invariant (P : State -> Prop) :
  (forall e s, P s -> P (step JSON_parse e s)) ->
  forall events s, P s -> P (exec JSON_parse events s).
Proof.
  intros Hstep events. induction events as [|e events IH]; intros s Hs;
    [exact Hs|].
  apply (IH (step JSON_parse e s)). now apply Hstep.
Qed.

Lemma size_le_length (ids : gset string) (l : list string) :
  (forall v, v ∈ ids -> v ∈ l) -> (size ids <= length l)%nat.
Proof.
  intros Hsub.
  transitivity (size (list_to_set l : gset string)).
  - apply subseteq_size. intros v Hv. apply elem_of_list_to_set. now apply Hsub.
  - clear. induction l as [|x l IH]; cbn; [now rewrite size_empty|].
    rewrite size_union_alt, size_singleton.
    assert (size ((list_to_set l : gset string) ∖ {[x]})
            <= size (list_to_set l : gset string))%nat.
    { apply subseteq_size. intros v Hv. now apply elem_of_difference in Hv. }
    lia.
Qed.

(** X2. In every reachable state each id of the in-flight set belongs
    to a call of [processVideo] that has not settled, so the in-flight
    set never holds more ids than [currentProcessing] counts, and never
    more than two. *)
Theorem inflight_ids_are_running (events : list Event) :
  let s := exec JSON_parse events initial in
  (forall v, v ∈ processingIds s ->
             exists r, r ∈ running s /\ run_videoId r = v) /\
  Z.of_nat (size (processingIds s)) <= currentProcessing s <= 2.
Proof.
  intros s.
  assert (Hs : inflight_have_runs s).
  { apply (exec_invariant inflight_have_runs step_inflight).
    intros v Hv. cbn in Hv. now apply not_elem_of_empty in Hv. }
  split; [exact Hs|].
  assert (Hcap : within_capacity s).
  { apply (exec_capacity JSON_parse events initial).
    split; [reflexivity | unfold MAX_CONCURRENT_REQUESTS; cbn [currentProcessing initial]; lia]. }
  destruct Hcap as [Hcount Hbound]. unfold MAX_CONCURRENT_REQUESTS in Hbound.
  split; [|lia].
  rewrite Hcount. apply Nat2Z.inj_le.
  rewrite <- (length_fmap run_videoId).
  apply size_le_length. intros v Hv.
  destruct (Hs v Hv) as (r & Hr & <-). now apply list_elem_of_fmap_2.
Qed.

(** *** Retry counters *)

Lemma on_error_counters_in_range (videoId : string) (res : nat)
    (message : string) (s : State) :
  counters_in_range s -> counters_in_range (on_error videoId res message s).
Proof.
  intros Hs. unfold on_error.
  destruct (default 0 (retryAttempts s !! videoId) <? maxRetries) eqn:Hlt;
    cbn [andb].
  - destruct (isRetryableError message).
    + intros v n. cbn. intros Hv.
      apply lookup_insert_Some in Hv as [[_ <-] | [_ Hv]]; [|now apply (Hs v)].
      apply Z.ltb_lt in Hlt.
      destruct (retryAttempts s !! videoId) as [m|] eqn:Hm; cbn in *.
      * specialize (Hs _ _ Hm). lia.
      * unfold maxRetries. lia.
    + intros v n Hv.
      assert (Hv' : delete videoId (retryAttempts s) !! v = Some n)
        by (destruct (headersSent _ res); exact Hv).
      apply lookup_delete_Some in Hv' as [_ Hv']. now apply (Hs v).
  - intros v n Hv.
    assert (Hv' : delete videoId (retryAttempts s) !! v = Some n)
      by (destruct (headersSent _ res); exact Hv).
    apply lookup_delete_Some in Hv' as [_ Hv']. now apply (Hs v).
Qed.

Lemma counters_same (s s' : State) :
  retryAttempts s' = retryAttempts s ->
  counters_in_range s -> counters_in_range s'.
Proof. unfold counters_in_range. now intros ->. Qed.

Lemma add_retryAttempts (videoId : string) (res : nat) (now : Z) (s : State) :
  retryAttempts (add videoId res now s) = retryAttempts s.
Proof.
  unfold add. destruct (bool_decide _); [reflexivity|].
  destruct (existsb _ _); [reflexivity|].
  now rewrite (proj2 (proj2 (proj2 (processQueue_parts _)))).
Qed.

Lemma fire_retryAttempts (timer : nat) (s : State) :
  retryAttempts (fire timer s) = retryAttempts s.
Proof.
  unfold fire. destruct (timers s !! timer) as [t|]; [|reflexivity].
  destruct (callback t).
  - unfold deadline. rewrite (proj1 (removeFromQueue_others _ _)).
    now destruct (headersSent _ res).
  - now rewrite (proj2 (proj2 (proj2 (processQueue_parts _)))).
  - now rewrite (proj2 (proj2 (proj2 (processQueue_parts _)))).
Qed.

Lemma settle_counters_in_range (run : nat) (env : PipelineEnv) (s : State) :
  counters_in_range s -> counters_in_range (settle JSON_parse run env s).
Proof.
  intros Hs. unfold settle. destruct (running s !! run) as [r|]; [|exact Hs].
  cbv zeta. unfold on_finally.
  match goal with
  | |- counters_in_range (setTimeout _ _ (removeFromQueue ?v ?t)) =>
      apply (counters_same t);
        [cbn [retryAttempts setTimeout set_timers];
         apply (removeFromQueue_others v t)|]
  end.
  match goal with
  | |- counters_in_range (set_currentProcessing _ ?t) =>
      apply (counters_same t); [reflexivity|]
  end.
  destruct (settled _); [exact Hs|].
  apply on_error_counters_in_range. exact Hs.
Qed.

Lemma step_counters_in_range (e : Event) (s : State) :
  counters_in_range s -> counters_in_range (step JSON_parse e s).
Proof.
  intros Hs. destruct e; cbn [step].
  - unfold post. destruct (negb _); [exact Hs|].
    apply (counters_same s); [apply add_retryAttempts | exact Hs].
  - apply (counters_same s); [apply processQueue_parts | exact Hs].
  - apply (counters_same s); [apply fire_retryAttempts | exact Hs].
  - now apply settle_counters_in_range.
  - unfold socket_timeout. now destruct (headersSent s res).
Qed.

(** X3. In every reachable state a retry counter, when present, is 1
    or 2: it never reaches beyond [maxRetries]. *)
Theorem retry_counters_in_range (events : list Event) (v : string) (n : Z) :
  retryAttempts (exec JSON_parse events initial) !! v = Some n ->
  n = 1 \/ n = 2.
Proof.
  intros Hv.
  assert (Hs : counters_in_range (exec JSON_parse events initial)).
  { apply (exec_invariant counters_in_range step_counters_in_range).
    intros w m Hw. cbn in Hw. now rewrite lookup_empty in Hw. }
  specialize (Hs v n Hv). unfold maxRetries in Hs. lia.
Qed.

(** *** Deadline timers *)

Lemma same_id_same_index (q : list Item.t) (i j : nat) (x y : Item.t) :
  NoDup (Item.videoId <$> q) ->
  q !! i = Some x -> q !! j = Some y -> Item.videoId x = Item.videoId y ->
  i = j.
Proof.
  intros Hq Hi Hj Hid.
  apply (NoDup_lookup (Item.videoId <$> q) i j (Item.videoId x) Hq).
  - now rewrite list_lookup_fmap, Hi.
  - now rewrite list_lookup_fmap, Hj, Hid.
Qed.

Lemma deadlines_same (s s' : State) :
  queue s' = queue s -> timers s' = timers s -> nextTimer s' = nextTimer s ->
  deadlines_match s -> deadlines_match s'.
Proof. unfold deadlines_match. now intros -> -> ->. Qed.

Lemma setTimeout_deadlines (cb : Callback) (ms : Z) (s : State) :
  (forall v r, cb <> Deadline v r) ->
  deadlines_match s -> deadlines_match (setTimeout cb ms s).
Proof.
  intros Hcb (Hitems & Htimers & Hfresh). unfold deadlines_match. cbn.
  split; [|split].
  - intros item Hin. specialize (Hitems item Hin).
    rewrite lookup_insert_ne; [exact Hitems|].
    apply Hfresh in Hitems. lia.
  - intros k t v r Hk Ht.
    apply lookup_insert_Some in Hk as [[_ <-] | [_ Hk]].
    + cbn in Ht. now apply Hcb in Ht.
    + now apply (Htimers k t v r).
  - intros k t Hk.
    apply lookup_insert_Some in Hk as [[<- _] | [_ Hk]]; [lia|].
    apply Hfresh in Hk. lia.
Qed.

(** Taking an item out of the queue together with its timer. *)
Lemma drop_item_deadlines (s s' : State) (i : nat) (item : Item.t) :
  ids_distinct s -> deadlines_match s ->
  queue s !! i = Some item ->
  queue s' = delete i (queue s) ->
  timers s' = delete (Item.timeout item) (timers s) ->
  nextTimer s' = nextTimer s ->
  deadlines_match s'.
Proof.
  intros Hids (Hitems & Htimers & Hfresh) Hi Hq Ht Hn.
  assert (Hother : forall other, other ∈ delete i (queue s) ->
                     other ∈ queue s /\ Item.timeout other <> Item.timeout item).
  { intros other Hin. split; [now apply list_elem_of_delete_inv in Hin|].
    intros Hsame.
    apply list_elem_of_lookup in Hin as [j Hj].
    pose proof (Hitems item (proj2 (list_elem_of_lookup _ _) (ex_intro _ i Hi)))
      as Hitem.
    assert (Hjs : exists j', queue s !! j' = Some other /\ j' <> i).
    { rewrite list_lookup_delete in Hj. destruct (decide (j < i)%nat).
      - exists j. split; [assumption | lia].
      - exists (S j). split; [assumption | lia]. }
    destruct Hjs as (j' & Hj' & Hne).
    pose proof (Hitems other (proj2 (list_elem_of_lookup _ _) (ex_intro _ j' Hj')))
      as Hoth.
    rewrite Hsame, Hitem in Hoth. injection Hoth as Hid _.
    apply Hne. symmetry.
    now apply (same_id_same_index (queue s) i j' item other). }
  unfold deadlines_match. rewrite Hq, Ht, Hn. split; [|split].
  - intros other Hin. destruct (Hother other Hin) as [Hin' Hne].
    rewrite lookup_delete_ne by congruence. now apply Hitems.
  - intros k t v r Hk Hcb.
    apply lookup_delete_Some in Hk as [Hne Hk].
    destruct (Htimers k t v r Hk Hcb) as (other & Hin & Hto).
    exists other. split; [|exact Hto].
    apply (elem_of_delete_other _ _ _ item); [assumption..|].
    intros ->. congruence.
  - intros k t Hk. apply lookup_delete_Some in Hk as [_ Hk].
    now apply (Hfresh k t).
Qed.

Lemma removeFromQueue_deadlines (videoId : string) (s : State) :
  ids_distinct s -> deadlines_match s ->
  deadlines_match (removeFromQueue videoId s).
Proof.
  intros Hids Hs.
  pose proof (removeFromQueue_queue videoId s) as Hq.
  destruct (removeFromQueue_timers videoId s) as [Ht Hn].
  destruct (findIndex videoId (queue s)) as [i|] eqn:Hfind.
  - destruct (findIndex_Some _ _ _ Hfind) as (item & Hi & _).
    rewrite Hi in Ht.
    now apply (drop_item_deadlines s _ i item).
  - now apply (deadlines_same s).
Qed.

Lemma on_error_deadlines (videoId : string) (res : nat) (message : string)
    (s : State) :
  deadlines_match s -> deadlines_match (on_error videoId res message s).
Proof.
  intros Hs. unfold on_error. destruct (_ && _).
  - apply setTimeout_deadlines; [discriminate|].
    now apply (deadlines_same s).
  - destruct (headersSent _ res); now apply (deadlines_same s).
Qed.

Lemma add_deadlines (videoId : string) (res : nat) (now : Z) (s : State) :
  deadlines_match s -> deadlines_match (add videoId res now s).
Proof.
  intros (Hitems & Htimers & Hfresh). unfold add.
  destruct (bool_decide _); [now repeat split|].
  destruct (existsb _ _); [now repeat split|].
  match goal with
  | |- deadlines_match (processQueue ?t) =>
      apply (deadlines_same t); try apply (processQueue_parts t)
  end.
  unfold deadlines_match. cbn. split; [|split].
  - intros item Hin. apply elem_of_app in Hin as [Hin | Hin].
    + specialize (Hitems item Hin). rewrite lookup_insert_ne; [exact Hitems|].
      apply Hfresh in Hitems. lia.
    + apply list_elem_of_singleton in Hin. subst item. cbn.
      apply lookup_insert_eq.
  - intros k t v r Hk Hcb.
    apply lookup_insert_Some in Hk as [[<- _] | [_ Hk]].
    + eexists. split; [apply elem_of_app; right; apply list_elem_of_here|].
      reflexivity.
    + destruct (Htimers k t v r Hk Hcb) as (item & Hin & Hto).
      exists item. split; [apply elem_of_app; now left | exact Hto].
  - intros k t Hk.
    apply lookup_insert_Some in Hk as [[<- _] | [_ Hk]]; [lia|].
    apply Hfresh in Hk. lia.
Qed.

Lemma settle_deadlines (run : nat) (env : PipelineEnv) (s : State) :
  ids_distinct s -> deadlines_match s ->
  deadlines_match (settle JSON_parse run env s).
Proof.
  intros Hids Hs. unfold settle.
  destruct (running s !! run) as [r|]; [|exact Hs].
  cbv zeta. unfold on_finally.
  apply setTimeout_deadlines; [discriminate|].
  apply removeFromQueue_deadlines.
  - destruct (settled _); [exact Hids|].
    apply (ids_distinct_same s); [|exact Hids].
    cbn [queue set_currentProcessing].
    now rewrite (proj1 (on_error_queue _ _ _ _)).
  - match goal with
    | |- deadlines_match (set_currentProcessing _ ?t) =>
        apply (deadlines_same t); try reflexivity
    end.
    destruct (settled _); [now apply (deadlines_same s)|].
    apply on_error_deadlines. now apply (deadlines_same s).
Qed.

Lemma fire_deadlines (timer : nat) (s : State) :
  ids_distinct s -> deadlines_match s -> deadlines_match (fire timer s).
Proof.
  intros Hids Hs. unfold fire.
  destruct (timers s !! timer) as [t|] eqn:Htimer; [|exact Hs].
  destruct Hs as (Hitems & Htimers & Hfresh).
  destruct (callback t) as [videoId res| videoId |] eqn:Hcb.
  - destruct (Htimers timer t videoId res Htimer Hcb) as (item & Hin & Hto).
    pose proof (Hitems item Hin) as Hitem. rewrite Hto, Htimer in Hitem.
    injection Hitem as Ht. rewrite Ht in Hcb. cbn in Hcb.
    injection Hcb as Hid Hres.
    unfold deadline.
    set (s1 := if headersSent (clearTimeout timer s) res
               then clearTimeout timer s else _).
    assert (Hq1 : queue s1 = queue s) by (subst s1; now destruct (headersSent _ res)).
    assert (Ht1 : timers s1 = delete timer (timers s))
      by (subst s1; now destruct (headersSent _ res)).
    assert (Hn1 : nextTimer s1 = nextTimer s)
      by (subst s1; now destruct (headersSent _ res)).
    pose proof (removeFromQueue_queue videoId s1) as Hq.
    destruct (removeFromQueue_timers videoId s1) as [Htm Hn].
    rewrite Hq1 in Hq, Htm.
    destruct (findIndex videoId (queue s)) as [i|] eqn:Hfind.
    + destruct (findIndex_Some _ _ _ Hfind) as (found & Hi & Hfid & _).
      rewrite Hi in Htm.
      apply list_elem_of_lookup in Hin as [j Hj].
      assert (i = j)
        by (apply (same_id_same_index (queue s) i j found item);
            [assumption.. | congruence]).
      subst j. assert (found = item) by congruence. subst found.
      apply (drop_item_deadlines s _ i item); try assumption.
      * now repeat split.
      * rewrite Htm, Ht1, Hto. apply delete_delete_eq.
      * congruence.
    + exfalso. apply (findIndex_None _ _ Hfind item Hin). congruence.
  - match goal with
    | |- deadlines_match (processQueue ?u) =>
        apply (deadlines_same u); try apply (processQueue_parts u)
    end.
    unfold deadlines_match. cbn. split; [|split].
    + intros item Hin. specialize (Hitems item Hin).
      rewrite lookup_delete_ne; [exact Hitems|].
      intros Heq. rewrite <- Heq, Htimer in Hitems. injection Hitems as ->.
      discriminate.
    + intros k t' v r Hk Hcb'. apply lookup_delete_Some in Hk as [_ Hk].
      now apply (Htimers k t' v r).
    + intros k t' Hk. apply lookup_delete_Some in Hk as [_ Hk].
      now apply (Hfresh k t').
  - match goal with
    | |- deadlines_match (processQueue ?u) =>
        apply (deadlines_same u); try apply (processQueue_parts u)
    end.
    unfold deadlines_match. cbn. split; [|split].
    + intros item Hin. specialize (Hitems item Hin).
      rewrite lookup_delete_ne; [exact Hitems|].
      intros Heq. rewrite <- Heq, Htimer in Hitems. injection Hitems as ->.
      discriminate.
    + intros k t' v r Hk Hcb'. apply lookup_delete_Some in Hk as [_ Hk].
      now apply (Htimers k t' v r).
    + intros k t' Hk. apply lookup_delete_Some in Hk as [_ Hk].
      now apply (Hfresh k t').
Qed.

Lemma step_deadlines (e : Event) (s : State) :
  ids_distinct s /\ deadlines_match s ->
  ids_distinct (step JSON_parse e s) /\ deadlines_match (step JSON_parse e s).
Proof.
  intros [Hids Hs]. split; [now apply step_ids_distinct|].
  destruct e; cbn [step].
  - unfold post. destruct (negb _); [exact Hs | now apply add_deadlines].
  - apply (deadlines_same s); try apply processQueue_parts. exact Hs.
  - now apply fire_deadlines.
  - now apply settle_deadlines.
  - unfold socket_timeout. now destruct (headersSent s res).
Qed.

(** X4. In every reachable state the deadline timers are exactly those
    of the queued items: each queued item has its own deadline pending,
    armed for [HTTP_TIMEOUT] with the item's [videoId] and response
    object, and every pending deadline belongs to a queued item. *)
Theorem deadlines_follow_the_queue (events : list Event) :
  let s := exec JSON_parse events initial in
  (forall item, item ∈ queue s ->
     timers s !! Item.timeout item
       = Some {| callback := Deadline (Item.videoId item) (Item.res item);
                 delay := HTTP_TIMEOUT |}) /\
  (forall k t v r, timers s !! k = Some t -> callback t = Deadline v r ->
     exists item, item ∈ queue s /\ Item.timeout item = k).
Proof.
  intros s.
  assert (Hs : ids_distinct s /\ deadlines_match s).
  { apply (exec_invariant (fun s => ids_distinct s /\ deadlines_match s)
             step_deadlines).
    split; [apply NoDup_nil_2|].
    unfold deadlines_match. cbn. split; [|split].
    - intros item Hin. inversion Hin.
    - intros k t v r Hk. now rewrite lookup_empty in Hk.
    - intros k t Hk. now rewrite lookup_empty in Hk. }
  destruct Hs as (_ & Hitems & Htimers & _). now split.
Qed.

(** *** The responses written *)

Lemma send_answers (res : nat) (status : Z) (body : Json) (s : State) :
  answer_ok (Send res status body) ->
  Forall answer_ok (log s) -> Forall answer_ok (log (send res status body s)).
Proof.
  intros Hok Hs. unfold send. cbn [log set_world].
  apply Forall_app. split; [exact Hs | now apply Forall_singleton].
Qed.

Lemma answers_same (s s' : State) :
  log s' = log s -> Forall answer_ok (log s) -> Forall answer_ok (log s').
Proof. now intros ->. Qed.

Lemma processVideo_answers (videoId : string) (res : nat) (env : PipelineEnv)
    (sent : bool) (disk : gset string) :
  Forall answer_ok (effects (processVideo JSON_parse videoId res env sent disk)).
Proof.
  assert (Hreply : forall b body,
            (exists c, field "cached" body = Some (JBool c)) ->
            Forall answer_ok (reply b res 200 body)).
  { intros [] body Hc; cbn; [constructor|].
    apply Forall_singleton. cbn. left. now split. }
  assert (Htrace : Forall answer_ok
                     (trace (performVideoAnalysis JSON_parse videoId env disk))).
  { unfold performVideoAnalysis, analysis_finally, analysis_try.
    destruct (downloadVideoFromDrive env); cbn; try now repeat constructor.
    destruct (analysis_timer_first env); cbn [filePath].
    - destruct (Str.truthy filePath0); now repeat constructor.
    - destruct (getVideoDescription JSON_parse (gemini env)); cbn [filePath];
        destruct (Str.truthy filePath0); now repeat constructor. }
  unfold processVideo.
  destruct (getVideoFromDB env) as [[existingVideo|]|message];
    cbn zeta.
  - cbn [effects]. constructor; [exact I|]. apply Hreply. now eexists.
  - destruct (processing_timer_first env); cbn [effects].
    + constructor; [exact I | exact Htrace].
    + destruct (outcome _); cbn [effects].
      * constructor; [exact I|]. apply Forall_app. split; [exact Htrace|].
        apply Hreply. now eexists.
      * constructor; [exact I | exact Htrace].
  - cbn. now repeat constructor.
Qed.

Lemma on_error_answers (videoId : string) (res : nat) (message : string)
    (s : State) :
  counters_in_range s ->
  Forall answer_ok (log s) ->
  Forall answer_ok (log (on_error videoId res message s)).
Proof.
  intros Hrange Hs. unfold on_error. destruct (_ && _); [exact Hs|].
  destruct (headersSent _ res); [exact Hs|].
  apply send_answers; [|exact Hs].
  cbn. do 4 right. split; [reflexivity|].
  eexists. split; [reflexivity|].
  destruct (retryAttempts s !! videoId) as [n|] eqn:Hn; cbn.
  - specialize (Hrange _ _ Hn). lia.
  - unfold maxRetries. lia.
Qed.

Lemma step_answers (e : Event) (s : State) :
  counters_in_range s /\ Forall answer_ok (log s) ->
  counters_in_range (step JSON_parse e s) /\
  Forall answer_ok (log (step JSON_parse e s)).
Proof.
  intros [Hrange Hs]. split; [now apply step_counters_in_range|].
  destruct e; cbn [step].
  - unfold post. destruct (negb _).
    + apply send_answers; [cbn; tauto | exact Hs].
    + unfold add. destruct (bool_decide _);
        [apply send_answers; [cbn; tauto | exact Hs]|].
      destruct (existsb _ _);
        [apply send_answers; [cbn; tauto | exact Hs]|].
      now rewrite processQueue_log.
  - now rewrite processQueue_log.
  - unfold fire. destruct (timers s !! timer) as [t|]; [|exact Hs].
    destruct (callback t).
    + unfold deadline. rewrite (proj1 (proj2 (removeFromQueue_others _ _))).
      destruct (headersSent _ res); [exact Hs|].
      apply send_answers; [cbn; tauto | exact Hs].
    + now rewrite processQueue_log.
    + now rewrite processQueue_log.
  - unfold settle. destruct (running s !! run) as [r|]; [|exact Hs].
    cbv zeta. unfold on_finally. cbn [log setTimeout set_timers].
    rewrite (proj1 (proj2 (removeFromQueue_others _ _))).
    cbn [log set_currentProcessing].
    assert (Hlog : Forall answer_ok
                     (log s ++ effects
                        (processVideo JSON_parse (run_videoId r) (run_res r) env
                           (headersSent (set_running (delete run (running s)) s)
                                        (run_res r))
                           (disk (set_running (delete run (running s)) s))))).
    { apply Forall_app. split; [exact Hs | apply processVideo_answers]. }
    destruct (settled _); [exact Hlog|].
    apply on_error_answers; [exact Hrange | exact Hlog].
  - unfold socket_timeout. destruct (headersSent s res); [exact Hs|].
    apply send_answers; [cbn; tauto | exact Hs].
Qed.

(** X5. Every response that the handler of [POST /], the queue and
    the timeout middleware have written, in any state they can reach,
    has status 200, 400, 408, 409 or 500; a 200 carries its [cached]
    flag, and a 500 reports a number of attempts between 1 and
    [maxRetries + 1], that is 3. The responses of the other routes and
    of the handlers for unknown routes and for errors of the middleware
    are not in the log of the model. *)
Theorem responses_are_well_formed (events : list Event)
    (res : nat) (status : Z) (body : Json) :
  Send res status body ∈ log (exec JSON_parse events initial) ->
  (status = 200 /\ exists b, field "cached" body = Some (JBool b)) \/
  status = 400 \/ status = 408 \/ status = 409 \/
  (status = 500 /\
   exists n, field "attempts" body = Some (JNum n) /\ 1 <= n <= 3).
Proof.
  intros Hin.
  assert (Hs : counters_in_range (exec JSON_parse events initial) /\
               Forall answer_ok (log (exec JSON_parse events initial))).
  { apply (exec_invariant
             (fun s => counters_in_range s /\ Forall answer_ok (log s))
             step_answers).
    split; [|constructor].
    intros w m Hw. cbn in Hw. now rewrite lookup_empty in Hw. }
  destruct Hs as [_ Hs].
  rewrite Forall_forall in Hs. exact (Hs _ Hin).
Qed.

(** *** Deadlines and failures *)

Lemma removeFromQueue_forgets (videoId : string) (s : State) :
  ids_distinct s ->
  forall item, item ∈ queue (removeFromQueue videoId s) ->
               Item.videoId item <> videoId.
Proof.
  intros Hids item Hin. rewrite removeFromQueue_queue in Hin.
  destruct (findIndex videoId (queue s)) as [i|] eqn:Hfind;
    [|now apply (findIndex_None _ _ Hfind)].
  destruct (findIndex_Some _ _ _ Hfind) as (found & Hi & Hid & _).
  intros Hsame.
  apply list_elem_of_lookup in Hin as [j Hj].
  rewrite list_lookup_delete in Hj.
  assert (i = if decide (j < i)%nat then j else S j)
    by (apply (same_id_same_index (queue s) _ _ found item);
        [assumption.. | congruence]).
  destruct (decide (j < i)%nat); lia.
Qed.

(** X6. When the deadline of a request fires, the caller is answered
    408 unless a response was already sent, and the [videoId] leaves both
    the queue and the in-flight set, so a new request for it is accepted;
    a run in progress is not stopped and keeps its slot. *)
Theorem deadline_frees_the_id_not_the_slot (videoId : string) (res : nat)
    (s : State) :
  NoDup (Item.videoId <$> queue s) ->
  let s' := deadline videoId res s in
  (videoId ∉ processingIds s') /\
  (forall item, item ∈ queue s' -> Item.videoId item <> videoId) /\
  running s' = running s /\
  currentProcessing s' = currentProcessing s /\
  log s' = (log s ++ if headersSent s res then []
                     else [ Send res 408
                              (JObj [ ("error", JStr "Procesamiento tomó demasiado tiempo");
                                      ("videoId", JStr videoId);
                                      ("timeout", JBool true) ]) ])%list.
Proof.
  intros Hids s'. subst s'. unfold deadline.
  set (s1 := if headersSent s res then s else _).
  assert (Hq : queue s1 = queue s) by (subst s1; now destruct (headersSent s res)).
  destruct (removeFromQueue_counters videoId s1) as [Hcp Hrun].
  destruct (removeFromQueue_others videoId s1) as (_ & Hlog & _).
  rewrite removeFromQueue_processingIds, Hcp, Hrun, Hlog.
  split; [|split; [|split; [|split]]].
  - intros Hin. apply elem_of_difference in Hin as [_ Hin].
    apply Hin. now apply elem_of_singleton.
  - apply removeFromQueue_forgets. unfold ids_distinct. now rewrite Hq.
  - subst s1. now destruct (headersSent s res).
  - subst s1. now destruct (headersSent s res).
  - subst s1. destruct (headersSent s res); [now rewrite app_nil_r | reflexivity].
Qed.

(** X7. When a run rejects with an error that is not retryable, or
    with the retry counter of its [videoId] at [maxRetries], the queue
    gives up at once: the counter is deleted, the slot is released, and
    the caller, unless already answered, receives a single 500 that
    reports one attempt more than the counter held. *)
Theorem failure_without_retry_is_answered (run : nat) (env : PipelineEnv)
    (s : State) (r : Run) (message : string) :
  running s !! run = Some r ->
  settled (processVideo JSON_parse (run_videoId r) (run_res r) env
             (headersSent s (run_res r)) (disk s)) = Rejected message ->
  isRetryableError message = false \/
  maxRetries <= default 0 (retryAttempts s !! run_videoId r) ->
  headersSent s (run_res r) = false ->
  let s' := settle JSON_parse run env s in
  retryAttempts s' !! run_videoId r = None /\
  currentProcessing s' = currentProcessing s - 1 /\
  exists text : string,
    responses (run_res r) s'
      = [ (500, JObj [ ("error", JStr text);
                       ("videoId", JStr (run_videoId r));
                       ("attempts",
                        JNum (default 0 (retryAttempts s !! run_videoId r) + 1)) ]) ].
Proof.
  intros Hrun Hrejected Hstop Hunsent s'.
  destruct (settle_parts run env s r Hrun) as (_ & _ & Hcp).
  split; [|split; [exact Hcp|]]; subst s'; unfold settle; rewrite Hrun; cbv zeta;
    change (headersSent (set_running (delete run (running s)) s) (run_res r))
      with (headersSent s (run_res r));
    change (disk (set_running (delete run (running s)) s)) with (disk s);
    rewrite Hrejected; unfold on_finally.
  - cbn [retryAttempts setTimeout set_timers].
    rewrite (proj1 (removeFromQueue_others _ _)).
    cbn [retryAttempts set_currentProcessing].
    match goal with
    | |- retryAttempts (on_error ?v ?x ?m ?t) !! _ = None =>
        apply (on_error_gives_up v x m t)
    end.
    destruct Hstop as [Hfatal | Hfull]; [now right | now left].
  - unfold responses. cbn [log setTimeout set_timers].
    rewrite (proj1 (proj2 (removeFromQueue_others _ _))).
    cbn [log set_currentProcessing].
    match goal with
    | |- context [on_error ?v ?x ?m ?t] =>
        destruct (on_error_gives_up v x m t) as (_ & _ & Hsend)
    end.
    { destruct Hstop as [Hfatal | Hfull]; [now right | now left]. }
    assert (Hnone : sends_to (run_res r)
                      (effects (processVideo JSON_parse (run_videoId r) (run_res r)
                                  env (headersSent s (run_res r)) (disk s))) = []).
    { destruct (processVideo_sends JSON_parse (run_res r) (run_videoId r)
                  (run_res r) env (headersSent s (run_res r)) (disk s))
        as [Hnone | (_ & _ & Hok & _)]; [exact Hnone | congruence]. }
    assert (Hbefore : sends_to (run_res r) (log s) = [])
      by (now apply (headersSent_false s)).
    destruct Hsend as [text Hlog].
    { apply headersSent_false. unfold responses. cbn [log set_world set_running].
      now rewrite sends_to_app, Hbefore, Hnone. }
    exists text. rewrite Hlog. cbn [log set_world set_running retryAttempts].
    rewrite !sends_to_app, Hbefore, Hnone. cbn.
    now rewrite Nat.eqb_refl.
Qed.

(** X22. Whatever way a run settles (a result, a failure that will
    not be retried, or one that should be), the [finally] block releases
    its slot and takes its [videoId] out of the in-flight set and out of
    the queue. *)
Theorem settled_run_leaves_the_queue (run : nat) (env : PipelineEnv)
    (s : State) (r : Run) :
  NoDup (Item.videoId <$> queue s) ->
  running s !! run = Some r ->
  let s' := settle JSON_parse run env s in
  currentProcessing s' = currentProcessing s - 1 /\
  (run_videoId r ∉ processingIds s') /\
  (forall item, item ∈ queue s' -> Item.videoId item <> run_videoId r).
Proof.
  intros Hids Hrun s'.
  destruct (settle_parts run env s r Hrun) as (Hinflight & _ & Hcp).
  split; [exact Hcp|]. split.
  - fold s' in Hinflight. rewrite Hinflight.
    intros Hin. apply elem_of_difference in Hin as [_ Hin].
    apply Hin. now apply elem_of_singleton.
  - subst s'. unfold settle. rewrite Hrun. cbv zeta. unfold on_finally.
    cbn [queue setTimeout set_timers].
    apply removeFromQueue_forgets.
    apply (ids_distinct_same s); [|exact Hids].
    cbn [queue set_currentProcessing].
    destruct (settled _); [reflexivity|].
    now rewrite (proj1 (on_error_queue _ _ _ _)).
Qed.

(** X23. A request for a [videoId] that is neither in flight nor
    queued is admitted without a response: its item goes to the end of
    the queue with a deadline of [HTTP_TIMEOUT] armed for it; and when
    nothing else is queued and a slot is free, its run starts at once. *)
Theorem admitted_request_is_queued (videoId : string) (res : nat) (now : Z)
    (s : State) :
  videoId ∉ processingIds s ->
  (forall item, item ∈ queue s -> Item.videoId item <> videoId) ->
  let s' := add videoId res now s in
  let item := {| Item.videoId := videoId; Item.res := res;
                 Item.timestamp := now; Item.timeout := nextTimer s |} in
  queue s' = (queue s ++ [item])%list /\
  timers s' = <[nextTimer s := {| callback := Deadline videoId res;
                                  delay := HTTP_TIMEOUT |}]> (timers s) /\
  log s' = log s /\
  (queue s = [] -> currentProcessing s < MAX_CONCURRENT_REQUESTS ->
   running s' = (running s ++ [ {| run_videoId := videoId; run_res := res |} ])%list
   /\ videoId ∈ processingIds s').
Proof.
  intros Hinflight Hqueued s' item. subst s'. unfold add.
  rewrite bool_decide_eq_false_2 by exact Hinflight.
  assert (Hnone : existsb (fun item => String.eqb (Item.videoId item) videoId)
                          (queue s) = false).
  { destruct (existsb _ (queue s)) eqn:H; [|reflexivity].
    apply existsb_exists in H as (other & Hin & Heq).
    apply String.eqb_eq in Heq. apply list_elem_of_In in Hin.
    now apply Hqueued in Hin. }
  rewrite Hnone. fold item.
  set (s1 := set_queue _ _).
  destruct (processQueue_parts s1) as (-> & -> & _ & _).
  rewrite processQueue_log.
  split; [reflexivity|]. split; [reflexivity|]. split; [reflexivity|].
  intros Hempty Hfree. unfold processQueue.
  assert ((MAX_CONCURRENT_REQUESTS <=? currentProcessing s1) = false) as ->
    by (apply Z.leb_gt; exact Hfree).
  subst s1. cbn [queue set_queue setTimeout set_timers processingIds].
  rewrite Hempty. cbn [app length Nat.eqb orb List.find Item.videoId].
  rewrite bool_decide_eq_false_2 by exact Hinflight. cbn [negb].
  cbn. split; [reflexivity|].
  apply elem_of_union. left. now apply elem_of_singleton.
Qed.

End Invariants.

(** ** More on one pipeline run *)

Section RunOutcome.

Variable JSON_parse : string -> option Json.

(** X8. A run that finds nothing in the store resolves exactly when
    every stage succeeds and no timer wins: the download returns a path,
    the inference returns a result, the store accepts it. Then, for a
    path that is not empty, the result is stored and the temporary file
    removed before the response is written. *)
Theorem run_resolves_iff_every_stage_succeeds (videoId : string) (res : nat)
    (env : PipelineEnv) (sent : bool) (disk : gset string) :
  getVideoFromDB env = Resolved None ->
  let p := processVideo JSON_parse videoId res env sent disk in
  (settled p = Resolved tt <->
   exists path result,
     downloadVideoFromDrive env = Downloaded path /\
     analysis_timer_first env = false /\
     getVideoDescription JSON_parse (gemini env) = Resolved result /\
     insertVideo env = Resolved tt /\
     processing_timer_first env = false) /\
  (forall path result,
     downloadVideoFromDrive env = Downloaded path ->
     getVideoDescription JSON_parse (gemini env) = Resolved result ->
     path <> "" ->
     settled p = Resolved tt ->
     effects p = ([ CallGetVideoFromDB videoId;
                    CallDownload videoId;
                    CallDescribe path;
                    CallInsert videoId (description result) (tokenUsage result);
                    CallCleanup path ]
                  ++ reply sent res 200 (fresh_body videoId result))%list).
Proof.
  intros Hmiss p. subst p. unfold processVideo. rewrite Hmiss.
  unfold performVideoAnalysis, analysis_finally, analysis_try.
  split.
  - split.
    + intros Hok.
      destruct (downloadVideoFromDrive env) as [path|message|partial];
        cbn in Hok;
        try (destruct (processing_timer_first env); discriminate).
      destruct (analysis_timer_first env); cbn in Hok.
      { destruct (Str.truthy path); cbn in Hok;
          destruct (processing_timer_first env); discriminate. }
      destruct (getVideoDescription JSON_parse (gemini env)) as [result|message];
        cbn in Hok.
      * destruct (insertVideo env) as [[]|message] eqn:Hinsert;
          destruct (Str.truthy path); cbn in Hok;
          destruct (processing_timer_first env) eqn:Htimer; try discriminate;
          exists path, result; now repeat split.
      * destruct (Str.truthy path); cbn in Hok;
          destruct (processing_timer_first env); discriminate.
    + intros (path & result & -> & -> & -> & -> & ->).
      cbn. now destruct (Str.truthy path).
  - intros path result -> -> Hpath Hok.
    destruct (analysis_timer_first env).
    { cbn in Hok. destruct (Str.truthy path); cbn in Hok;
        destruct (processing_timer_first env); discriminate. }
    cbn [filePath] in *. rewrite (truthy_nonempty _ Hpath) in *.
    cbn in Hok |- *.
    destruct (processing_timer_first env); [discriminate|].
    destruct (insertVideo env); [reflexivity | discriminate].
Qed.

(** X9. When the file can be read and passes the size checks, the
    errors of the tiers are never passed on: [getVideoDescription] either
    resolves with the answer of one of the eligible tiers, or rejects
    with the fixed message "Todos los modelos de Gemini fallaron", which
    [isRetryableError] does not accept. *)
Theorem tier_errors_are_not_passed_on (env : GeminiEnv) (size : Z)
    (models : list ModelConfig) :
  genAI env = true ->
  statSync env = Resolved size ->
  size_gate size = Eligible models ->
  readFileSync env = Resolved tt ->
  (exists result, getVideoDescription JSON_parse env = Resolved result /\
                  modelUsed result ∈ name <$> models) \/
  (getVideoDescription JSON_parse env
     = Rejected "Todos los modelos de Gemini fallaron" /\
   isRetryableError "Todos los modelos de Gemini fallaron" = false).
Proof.
  intros Hconfigured Hstat Hgate Hread.
  unfold getVideoDescription, describe_body.
  rewrite Hconfigured, Hstat, Hgate, Hread. cbn [negb].
  assert (Hloop : forall buffer,
            (exists result, try_models JSON_parse env models buffer = Resolved result /\
                            modelUsed result ∈ name <$> models) \/
            try_models JSON_parse env models buffer
              = Rejected "Todos los modelos de Gemini fallaron").
  { clear. induction models as [|m models IH]; intros buffer; [now right|].
    cbn [try_models].
    assert (Hrest : forall b,
              (exists result,
                 try_models JSON_parse env models b = Resolved result /\
                 modelUsed result ∈ name <$> m :: models) \/
              try_models JSON_parse env models b
                = Rejected "Todos los modelos de Gemini fallaron").
    { intros b. destruct (IH b) as [(result & Hr & Hin) | Hr]; [left | now right].
      exists result. split; [exact Hr | now apply list_elem_of_further]. }
    destruct buffer; cbn [negb]; [|apply Hrest].
    destruct (generateContent env (name m)) as [msg|msg|text usage];
      try apply Hrest.
    left. eexists. split; [reflexivity|]. cbn. apply list_elem_of_here. }
  destruct (Hloop true) as [(result & -> & Hin) | ->].
  - left. now exists result.
  - right. split; [reflexivity | vm_compute; reflexivity].
Qed.

(** X10. Once [response.text()] of a tier has thrown, the video buffer
    is gone and no later tier is called: with the tiers before it failing
    in their calls, [getVideoDescription] rejects whatever the remaining
    tiers would have answered. *)
Theorem text_failure_ends_the_tiers (env : GeminiEnv) (size : Z)
    (earlier : list ModelConfig) (m : ModelConfig) (later : list ModelConfig)
    (message : string) :
  genAI env = true ->
  statSync env = Resolved size ->
  size_gate size = Eligible (earlier ++ m :: later) ->
  readFileSync env = Resolved tt ->
  Forall (fun c => exists msg,
            generateContent env (name c) = GenerateFailed msg) earlier ->
  generateContent env (name m) = TextFailed message ->
  getVideoDescription JSON_parse env
    = Rejected "Todos los modelos de Gemini fallaron".
Proof.
  intros Hconfigured Hstat Hgate Hread Hearlier Hm.
  unfold getVideoDescription, describe_body.
  rewrite Hconfigured, Hstat, Hgate, Hread. cbn [negb].
  assert (Hgone : forall models,
            try_models JSON_parse env models false
              = Rejected "Todos los modelos de Gemini fallaron").
  { induction models as [|c models IH]; [reflexivity | exact IH]. }
  assert (Hloop : try_models JSON_parse env (earlier ++ m :: later) true
                  = Rejected "Todos los modelos de Gemini fallaron").
  { clear Hgate. induction Hearlier as [|c earlier [msg Hc] _ IH]; cbn.
    - rewrite Hm. apply Hgone.
    - rewrite Hc. exact IH. }
  rewrite Hloop. reflexivity.
Qed.

End RunOutcome.

Lemma megabytes_le (size limit : Z) :
  Qle_bool (fileSizeInMB size) (inject_Z limit) = (size <=? limit * 1048576).
Proof.
  change (fileSizeInMB size) with (Qmake (size * 1) 1048576).
  unfold Qle_bool. cbn [Qnum Qden inject_Z].
  now rewrite !Z.mul_1_r.
Qed.

Lemma megabytes_over_ceiling (size : Z) :
  Qgtb (fileSizeInMB size) (inject_Z 50) = (52428800 <? size).
Proof.
  change (fileSizeInMB size) with (Qmake (size * 1) 1048576).
  unfold Qgtb, Qcompare. cbn [Qnum Qden inject_Z].
  change (50 * Z.pos 1048576) with 52428800.
  rewrite !Z.mul_1_r, Z.ltb_antisym. unfold Z.leb.
  destruct (size ?= 52428800); reflexivity.
Qed.

(** X11. The tiers in bytes: a file above 50 MB (52428800 bytes) is
    refused, a file of at most 30 MB (31457280 bytes) may use both tiers,
    the faster one first, and a file in between only "gemini-2.5-flash". *)
Theorem tiers_by_size (size : Z) :
  size_gate size =
    if 52428800 <? size then OverCeiling
    else if size <=? 31457280
         then Eligible [ {| name := "gemini-2.5-flash"; maxSizeMB := 50 |};
                         {| name := "gemini-2.5-pro"; maxSizeMB := 30 |} ]
         else Eligible [ {| name := "gemini-2.5-flash"; maxSizeMB := 50 |} ].
Proof.
  unfold size_gate, availableModels, modelConfigs.
  rewrite megabytes_over_ceiling.
  destruct (52428800 <? size) eqn:Hbig; [reflexivity|].
  apply Z.ltb_ge in Hbig. cbn [List.filter maxSizeMB].
  rewrite !megabytes_le.
  assert ((size <=? 50 * 1048576) = true) as -> by (apply Z.leb_le; lia).
  change (30 * 1048576) with 31457280.
  destruct (size <=? 31457280); reflexivity.
Qed.

(** ** Strings: error classification and cleaning of the answer *)

Lemma toLowerCase_append (a b : string) :
  Str.toLowerCase (a ++ b) = Str.toLowerCase a ++ Str.toLowerCase b.
Proof.
  induction a as [|c a IH]; [reflexivity|].
  change (String c a ++ b) with (String c (a ++ b)). cbn. now rewrite IH.
Qed.

Lemma retryable_context (before message after : string) :
  isRetryableError message = true ->
  isRetryableError (before ++ message ++ after) = true.
Proof.
  unfold isRetryableError. intros H.
  apply existsb_exists in H as (msg & Hin & Hmsg).
  apply existsb_exists. exists msg. split; [exact Hin|].
  rewrite !toLowerCase_append.
  apply includes_append_l, includes_append_r. exact Hmsg.
Qed.

(** X12. A message stays retryable when text is put before or after
    it: whatever wraps a retryable error keeps it retryable. *)
Theorem retryable_in_any_context (before message after : string) :
  isRetryableError message = true ->
  isRetryableError (before ++ message ++ after) = true.
Proof.
  unfold isRetryableError. intros Hretryable.
  apply existsb_exists in Hretryable as (keyword & Hkeyword & Hfound).
  apply existsb_exists. exists keyword. split; [exact Hkeyword|].
  rewrite !toLowerCase_append.
  apply includes_append_l. apply includes_append_r. exact Hfound.
Qed.

Lemma retryable_in_any_context_witness :
  isRetryableError ("No se pudo descargar el video: "
                    ++ "read ECONNRESET" ++ "") = true.
Proof.
  apply (retryable_in_any_context "No se pudo descargar el video: "
           "read ECONNRESET" "").
  vm_compute. reflexivity.
Defined.

(** X13. The mapping of common errors decides whether a job is
    retried: a message that mentions 500 or 503 becomes one that
    [isRetryableError] accepts, and a message that mentions 403 or 429
    (and neither 500 nor 503) becomes one it refuses, even when the
    original message was retryable. *)
Theorem mapped_errors_and_retry (message : string) :
  (Str.includes message "500" = true \/ Str.includes message "503" = true ->
   isRetryableError (map_common_errors message) = true) /\
  (Str.includes message "500" = false ->
   Str.includes message "503" = false ->
   Str.includes message "403" = true \/ Str.includes message "429" = true ->
   isRetryableError (map_common_errors message) = false).
Proof.
  unfold map_common_errors. split.
  - intros [H | H].
    + rewrite H. vm_compute. reflexivity.
    + destruct (Str.includes message "500"); [vm_compute; reflexivity|].
      rewrite H. vm_compute. reflexivity.
  - intros -> -> [H | H].
    + rewrite H. vm_compute. reflexivity.
    + destruct (Str.includes message "403"); [vm_compute; reflexivity|].
      rewrite H. vm_compute. reflexivity.
Qed.

Lemma mapped_errors_and_retry_witness :
  isRetryableError "network timeout, status 429" = true /\
  isRetryableError (map_common_errors "network timeout, status 429") = false.
Proof.
  split; [vm_compute; reflexivity|].
  apply (mapped_errors_and_retry "network timeout, status 429");
    [vm_compute; reflexivity | vm_compute; reflexivity |].
  right. vm_compute. reflexivity.
Defined.

(** X14. An answer that contains no code fence is only trimmed: the
    cleaning changes nothing else in it. *)
Theorem unfenced_answer_is_only_trimmed (text : string) :
  Str.includes text "```" = false ->
  clean_response text = Str.trim text.
Proof.
  intros Hnone. unfold clean_response.
  assert (H3 : Str.includes (Str.trim text) "```" = false).
  { destruct (Str.includes (Str.trim text) "```") eqn:H; [|reflexivity].
    apply includes_trim in H. congruence. }
  assert (H7 : Str.includes (Str.trim text) "```json" = false).
  { destruct (Str.includes (Str.trim text) "```json") eqn:H; [|reflexivity].
    apply (includes_shorter _ "```" "json") in H. congruence. }
  rewrite (strip_fence_without _ _ H7), (strip_fence_without _ _ H3).
  apply trim_idempotent.
Qed.

Lemma unfenced_answer_is_only_trimmed_witness :
  clean_response "  {} " = "{}".
Proof.
  rewrite (unfenced_answer_is_only_trimmed "  {} "); [|vm_compute; reflexivity].
  vm_compute. reflexivity.
Defined.

Lemma strip_fence_keep (fence : string) (c : ascii) (s : string) :
  String.prefix fence (String c s) = false ->
  Str.strip_fence fence 0 (String c s) = String c (Str.strip_fence fence 0 s).
Proof. intros H. cbn [Str.strip_fence]. now rewrite H. Qed.

(** The pass that removes "```" leaves no "```" behind. The second and
    third statements carry the induction: the output starts with no more
    backticks than the input does. *)
Lemma strip_backticks (s : string) :
  (forall k, Str.includes (Str.strip_fence "```" k s) "```" = false) /\
  (String.prefix "``" s = false ->
   String.prefix "``" (Str.strip_fence "```" 0 s) = false) /\
  (String.prefix "`" s = false ->
   String.prefix "`" (Str.strip_fence "```" 0 s) = false).
Proof.
  induction s as [|c s (IHall & IH2 & IH1)]; [now repeat split|].
  split; [|split].
  - intros [|k]; [|cbn [Str.strip_fence]; apply IHall].
    destruct (String.prefix "```" (String c s)) eqn:Hprefix.
    + cbn [Str.strip_fence]. rewrite Hprefix. apply IHall.
    + rewrite (strip_fence_keep _ _ _ Hprefix). cbn [Str.includes].
      rewrite (IHall 0%nat), orb_false_r.
      rewrite prefix_cons in *.
      destruct (Ascii.ascii_dec "`" c); [now apply IH2 | reflexivity].
  - intros H. rewrite prefix_cons in H.
    assert (Hprefix : String.prefix "```" (String c s) = false).
    { rewrite prefix_cons. destruct (Ascii.ascii_dec "`" c); [|reflexivity].
      destruct s as [|d s]; [reflexivity|].
      rewrite prefix_cons in *.
      destruct (Ascii.ascii_dec "`" d); [|reflexivity].
      now destruct s. }
    rewrite (strip_fence_keep _ _ _ Hprefix), prefix_cons.
    destruct (Ascii.ascii_dec "`" c); [now apply IH1 | reflexivity].
  - intros H. rewrite prefix_cons in H.
    assert (Hc : "`"%char <> c).
    { intros Hc. destruct (Ascii.ascii_dec "`" c); [|contradiction].
      now destruct s. }
    assert (Hprefix : String.prefix "```" (String c s) = false).
    { rewrite prefix_cons. now destruct (Ascii.ascii_dec "`" c). }
    rewrite (strip_fence_keep _ _ _ Hprefix), prefix_cons.
    now destruct (Ascii.ascii_dec "`" c).
Qed.

(** X15. Whatever the inference service answers, the cleaned text
    contains no code fence "```" any more. *)
Theorem cleaned_answer_has_no_fence (text : string) :
  Str.includes (clean_response text) "```" = false.
Proof.
  unfold clean_response.
  destruct (Str.includes (Str.trim _) "```") eqn:H; [|reflexivity].
  apply includes_trim in H.
  now rewrite (proj1 (strip_backticks _) 0%nat) in H.
Qed.

(** ** The sweeps of the temporary directory *)

Lemma older_than (now modified minutes : Z) :
  Qgtb (ageInMinutes now modified) (inject_Z minutes)
    = (minutes * 60000 <? now - modified).
Proof.
  change (ageInMinutes now modified) with (Qmake ((now - modified) * 1) 60000).
  unfold Qgtb, Qcompare. cbn [Qnum Qden inject_Z].
  change (Z.pos 60000) with 60000.
  rewrite !Z.mul_1_r, Z.ltb_antisym. unfold Z.leb.
  destruct (now - modified ?= minutes * 60000); reflexivity.
Qed.

(** X16. The periodic sweep deletes exactly the entries that are older
    than 15 minutes and can be deleted, keeps every other entry in its
    place, whatever fails on the entries around it, and counts what it
    deleted. *)
Theorem periodic_sweep_is_exact (now : Z) (files : list Entry) :
  fst (periodic_sweep now files)
    = List.filter (fun file => negb (swept now file)) files /\
  snd (periodic_sweep now files)
    = Z.of_nat (length (List.filter (swept now) files)).
Proof.
  induction files as [|file files [IHkept IHcleaned]]; [now split|].
  cbn [periodic_sweep List.filter].
  destruct (periodic_sweep now files) as [kept cleaned]. cbn [fst snd] in *.
  assert (Hswept : swept now file
                   = match mtime file with
                     | Some modified => (900000 <? now - modified) && unlinkable file
                     | None => false
                     end) by reflexivity.
  rewrite !Hswept. clear Hswept.
  destruct (mtime file) as [modified|]; cbn [negb].
  - rewrite older_than. change (15 * 60000) with 900000.
    destruct (900000 <? now - modified); cbn [andb negb].
    + destruct (unlinkable file); cbn [negb fst snd length].
      * split; [exact IHkept | lia].
      * split; [now f_equal | exact IHcleaned].
    + cbn [fst snd]. split; [now f_equal | exact IHcleaned].
  - cbn [fst snd]. split; [now f_equal | exact IHcleaned].
Qed.

(** X17. The sweep at start-up ends at the first entry it fails on:
    before that entry it deletes what is older than 30 minutes, and that
    entry and everything listed after it stay, however old. *)
Theorem initial_sweep_stops_at_first_failure (now : Z)
    (before : list Entry) (bad : Entry) (after : list Entry) :
  Forall (fun file => blocks now file = false) before ->
  blocks now bad = true ->
  initial_sweep now (before ++ bad :: after)
    = (List.filter (fun file => negb (stale now file)) before
       ++ bad :: after)%list.
Proof.
  intros Hbefore Hbad.
  induction Hbefore as [|file before Hfile _ IH].
  - cbn [app initial_sweep List.filter]. unfold blocks in Hbad.
    destruct (mtime bad) as [modified|]; [|reflexivity].
    rewrite older_than. change (30 * 60000) with 1800000.
    apply andb_true_iff in Hbad as [-> Hlocked].
    apply negb_true_iff in Hlocked. now rewrite Hlocked.
  - change ((file :: before) ++ bad :: after)%list
      with (file :: (before ++ bad :: after))%list.
    cbn [initial_sweep List.filter]. unfold blocks in Hfile. unfold stale at 1.
    destruct (mtime file) as [modified|]; [|discriminate].
    rewrite older_than. change (30 * 60000) with 1800000.
    destruct (1800000 <? now - modified); cbn [negb andb] in *.
    + apply negb_false_iff in Hfile. rewrite Hfile. exact IH.
    + cbn [app]. now f_equal.
Qed.

Lemma initial_sweep_stops_at_first_failure_witness :
  initial_sweep 10000000
    [ {| entry_name := "a.mp4"; mtime := Some 0; unlinkable := true |};
      {| entry_name := "systemd-private"; mtime := Some 0; unlinkable := false |};
      {| entry_name := "b.mp4"; mtime := Some 0; unlinkable := true |} ]
  = [ {| entry_name := "systemd-private"; mtime := Some 0; unlinkable := false |};
      {| entry_name := "b.mp4"; mtime := Some 0; unlinkable := true |} ].
Proof.
  apply (initial_sweep_stops_at_first_failure 10000000
           [ {| entry_name := "a.mp4"; mtime := Some 0; unlinkable := true |} ]
           {| entry_name := "systemd-private"; mtime := Some 0; unlinkable := false |}
           [ {| entry_name := "b.mp4"; mtime := Some 0; unlinkable := true |} ]).
  - constructor; [reflexivity | constructor].
  - reflexivity.
Defined.

(** ** The fetch stage *)

Section Fetch.

Variable path_join : string -> string -> string.

(** X18. A file whose size in the metadata exceeds 100 MB
    (104857600 bytes) is refused before its content is requested:
    nothing is written and the only call made is the one for the
    metadata. *)
Theorem oversized_file_is_not_requested (videoId : string) (env : Drive.Env)
    (disk : gset string) (md : Drive.Metadata) :
  Drive.drive env = true ->
  Drive.get_metadata env = Drive.Answered (Resolved md) ->
  104857600 < Drive.fileSize md ->
  let o := Drive.downloadVideoFromDrive path_join videoId env disk in
  (exists text, Drive.result o
                = Rejected ("No se pudo descargar el video: Archivo demasiado grande: "
                            ++ text ++ " MB")) /\
  Drive.disk_after o = disk /\
  Drive.calls o = [Drive.GetMetadata videoId].
Proof.
  intros Hdrive Hmd Hsize o. subst o. unfold Drive.downloadVideoFromDrive.
  rewrite Hdrive, Hmd. cbn [negb].
  assert ((100 * 1024 * 1024 <? Drive.fileSize md) = true) as ->
    by (apply Z.ltb_lt; lia).
  cbn. split; [eexists; reflexivity | now split].
Qed.

(** X19. A file whose size is missing from the metadata, or is not a
    number, counts as 0 bytes and passes the size check: its content is
    requested. *)
Theorem unknown_size_is_requested (videoId : string) (env : Drive.Env)
    (disk : gset string) (md : Drive.Metadata) :
  Drive.drive env = true ->
  Drive.get_metadata env = Drive.Answered (Resolved md) ->
  Drive.md_size md = None \/
  (exists text, Drive.md_size md = Some text /\ Drive.parseInt text = None) ->
  Drive.fileSize md = 0 /\
  Drive.GetMedia videoId
    ∈ Drive.calls (Drive.downloadVideoFromDrive path_join videoId env disk).
Proof.
  intros Hdrive Hmd Hsize.
  assert (Hzero : Drive.fileSize md = 0).
  { unfold Drive.fileSize. destruct Hsize as [-> | (text & -> & ->)]; reflexivity. }
  split; [exact Hzero|].
  unfold Drive.downloadVideoFromDrive. rewrite Hdrive, Hmd, Hzero. cbn [negb].
  change (100 * 1024 * 1024 <? 0) with false. cbn iota.
  destruct (Drive.get_media env) as [[[]|message]|]; cbn [Drive.calls];
    try (apply list_elem_of_further, list_elem_of_here).
  destruct (Drive.transfer env); cbn [Drive.calls];
    try (apply list_elem_of_further, list_elem_of_here);
    apply elem_of_app; left; apply list_elem_of_further, list_elem_of_here.
Qed.

(** X20. When the copy of the stream fails, on the side of Drive or
    of the file, the function calls [cleanupTempFile] on the partial
    file as its last action and rejects with the error of the stream as
    it is, without the prefix its other failures carry. The partial file
    is gone afterwards unless [unlinkSync] has thrown, which
    [cleanupTempFile] catches and logs. *)
Theorem failed_copy_is_cleaned_up (videoId : string) (env : Drive.Env)
    (disk : gset string) (md : Drive.Metadata) (message : string) :
  Drive.drive env = true ->
  Drive.get_metadata env = Drive.Answered (Resolved md) ->
  Drive.fileSize md <= 104857600 ->
  Drive.get_media env = Drive.Answered (Resolved tt) ->
  Drive.transfer env = Drive.SourceError message \/
  Drive.transfer env = Drive.DestError message ->
  let filePath :=
    path_join "/tmp" (videoId ++ "_" ++ Str.of_Z (Drive.Date_now env) ++ "_"
                      ++ Drive.fileName videoId md) in
  let o := Drive.downloadVideoFromDrive path_join videoId env disk in
  Drive.result o = Rejected message /\
  last (Drive.calls o) = Some (Drive.Cleanup filePath) /\
  (filePath ∈ Drive.disk_after o <-> Drive.unlinkSync_throws env = true).
Proof.
  intros Hdrive Hmd Hsize Hmedia Hcopy filePath o. subst o.
  unfold Drive.downloadVideoFromDrive.
  rewrite Hdrive, Hmd, Hmedia. cbn [negb].
  assert ((100 * 1024 * 1024 <? Drive.fileSize md) = false) as ->
    by (apply Z.ltb_ge; lia).
  fold filePath.
  assert (Hon : filePath ∈ {[filePath]} ∪ disk).
  { apply elem_of_union. left. now apply elem_of_singleton. }
  destruct Hcopy as [-> | ->]; cbn [Drive.result Drive.disk_after Drive.calls];
    (split; [reflexivity | split; [reflexivity | now apply cleanup_outcome]]).
Qed.

(** X21. A failure of the metadata request or of the content request
    that is retryable stays retryable in the message the function rejects
    with, and the two timeouts of these requests are retryable. *)
Theorem request_failures_stay_retryable (videoId : string) (env : Drive.Env)
    (disk : gset string) (message : string) :
  Drive.drive env = true ->
  Drive.get_metadata env = Drive.Answered (Rejected message) \/
  Drive.get_metadata env = Drive.TimerWon \/
  ((exists md, Drive.get_metadata env = Drive.Answered (Resolved md) /\
               Drive.fileSize md <= 104857600) /\
   (Drive.get_media env = Drive.Answered (Rejected message) \/
    Drive.get_media env = Drive.TimerWon)) ->
  isRetryableError message = true ->
  exists text,
    Drive.result (Drive.downloadVideoFromDrive path_join videoId env disk)
      = Rejected text /\
    isRetryableError text = true.
Proof.
  intros Hdrive Hfail Hretry. unfold Drive.downloadVideoFromDrive.
  rewrite Hdrive. cbn [negb].
  assert (Hwrapped : isRetryableError (Drive.wrapped message) = true).
  { unfold Drive.wrapped.
    assert (Hnil : message ++ "" = message).
    { clear. induction message as [|c m IH]; [reflexivity|].
      change (String c m ++ "") with (String c (m ++ "")). now rewrite IH. }
    rewrite <- Hnil.
    now apply (retryable_context _ message ""). }
  destruct Hfail as [-> | [-> | ((md & -> & Hsize) & Hmedia)]].
  - eexists. split; [reflexivity | exact Hwrapped].
  - eexists. split; [reflexivity | vm_compute; reflexivity].
  - assert ((100 * 1024 * 1024 <? Drive.fileSize md) = false) as ->
      by (apply Z.ltb_ge; lia).
    destruct Hmedia as [-> | ->].
    + eexists. split; [reflexivity | exact Hwrapped].
    + eexists. split; [reflexivity | vm_compute; reflexivity].
Qed.

End Fetch.

(** ** Two facts about delivery and retries, for any state *)

Section Wrappers.

Variable JSON_parse : string -> option Json.

(** X24. Once a response object has been handed to the queue, and as
    long as no other request arrives with the same object, the server
    writes at most one response on it, whatever the order of deadlines,
    socket timeouts, ticks and settling runs. *)
Theorem response_object_answered_at_most_once (res : nat)
    (events : list Event) (s : State) :
  Forall (fun e => handed_over e <> Some res) events ->
  (length (responses res s) <= 1)%nat ->
  (length (responses res (exec JSON_parse events s)) <= 1)%nat.
Proof.
  intros Hevents. revert s.
  induction Hevents as [|e events He _ IH]; intros s Hs; [exact Hs|].
  change (exec JSON_parse (e :: events) s)
    with (exec JSON_parse events (step JSON_parse e s)).
  apply IH.
  destruct (step_first_or_none JSON_parse res e s He)
    as [Hsame | (_ & first & Hfirst)].
  - now rewrite Hsame.
  - rewrite Hfirst. cbn. lia.
Qed.

End Wrappers.

(** X25. When a run fails with a retryable error and the counter of
    its [videoId] is below [maxRetries], the [catch] block sends nothing,
    adds one to the counter and arms a wake-up after 5000 ms times 2 to
    the power of the attempts made so far (5000 ms, then 10000 ms). *)
Theorem retry_branch_counts_and_waits (videoId : string) (res : nat)
    (message : string) (s : State) :
  let attempts := default 0 (retryAttempts s !! videoId) in
  0 <= attempts < maxRetries ->
  isRetryableError message = true ->
  let s' := on_error videoId res message s in
  retryAttempts s' !! videoId = Some (attempts + 1) /\
  timers s' !! nextTimer s
    = Some {| callback := Retry videoId; delay := 5000 * 2 ^ attempts |} /\
  log s' = log s /\
  queue s' = queue s.
Proof.
  intros attempts Hrange Hretryable s'. subst s'. unfold on_error.
  fold attempts. rewrite Hretryable.
  assert ((attempts <? maxRetries) = true) as -> by (apply Z.ltb_lt; lia).
  cbn [andb]. cbn [retryAttempts timers log queue setTimeout set_timers
                   set_retryAttempts nextTimer].
  rewrite !lookup_insert_eq.
  unfold maxRetries in Hrange.
  assert (attempts = 0 \/ attempts = 1) as [-> | ->] by lia;
    (split; [reflexivity|]; split; [reflexivity|]; split; reflexivity).
Qed.

(** X26. With a free slot, [processQueue] starts exactly one run, for
    the oldest queued item whose [videoId] is not in flight: the items
    queued before it are passed over only because they are in flight. *)
Theorem dispatch_is_first_come_first_served (s : State)
    (before : list Item.t) (item : Item.t) (after : list Item.t) :
  currentProcessing s < MAX_CONCURRENT_REQUESTS ->
  queue s = (before ++ item :: after)%list ->
  Forall (fun waiting => Item.videoId waiting ∈ processingIds s) before ->
  Item.videoId item ∉ processingIds s ->
  let s' := processQueue s in
  running s' = (running s ++ [ {| run_videoId := Item.videoId item;
                                  run_res := Item.res item |} ])%list /\
  processingIds s' = {[Item.videoId item]} ∪ processingIds s /\
  currentProcessing s' = currentProcessing s + 1 /\
  queue s' = queue s.
Proof.
  intros Hfree Hqueue Hbefore Hitem s'. subst s'. unfold processQueue.
  assert ((MAX_CONCURRENT_REQUESTS <=? currentProcessing s) = false) as ->
    by (apply Z.leb_gt; exact Hfree).
  rewrite Hqueue.
  assert ((length (before ++ item :: after) =? 0)%nat = false) as ->
    by (apply Nat.eqb_neq; rewrite length_app; cbn; lia).
  cbn [orb].
  assert (Hfind : List.find
                    (fun item0 => negb (bool_decide (Item.videoId item0 ∈ processingIds s)))
                    (before ++ item :: after) = Some item).
  { clear Hqueue. induction Hbefore as [|waiting before Hwaiting _ IH]; cbn.
    - now rewrite bool_decide_eq_false_2.
    - rewrite bool_decide_eq_true_2 by exact Hwaiting. exact IH. }
  rewrite Hfind. cbn. now rewrite Hqueue.
Qed.

Lemma dispatch_is_first_come_first_served_witness :
  running (processQueue
             (set_queue [ {| Item.videoId := "A"; Item.res := 0;
                             Item.timestamp := 0; Item.timeout := 0 |};
                          {| Item.videoId := "B"; Item.res := 1;
                             Item.timestamp := 5; Item.timeout := 1 |} ]
                        one_request_running))
  = [ {| run_videoId := "A"; run_res := 0 |};
      {| run_videoId := "B"; run_res := 1 |} ].
Proof.
  apply (dispatch_is_first_come_first_served
           (set_queue [ {| Item.videoId := "A"; Item.res := 0;
                           Item.timestamp := 0; Item.timeout := 0 |};
                        {| Item.videoId := "B"; Item.res := 1;
                           Item.timestamp := 5; Item.timeout := 1 |} ]
                      one_request_running)
           [ {| Item.videoId := "A"; Item.res := 0;
                Item.timestamp := 0; Item.timeout := 0 |} ]
           {| Item.videoId := "B"; Item.res := 1;
              Item.timestamp := 5; Item.timeout := 1 |} []).
  - vm_compute. reflexivity.
  - reflexivity.
  - constructor; [|constructor]. vm_compute. reflexivity.
  - intros Hin. vm_compute in Hin. discriminate.
Defined.

(** ** Concrete instances *)

Lemma retry_counters_in_range_witness :
  retryAttempts (exec literal_parse one_retryable_failure initial) !! "A" = Some 1 /\
  ((1 : Z) = 1 \/ (1 : Z) = 2).
Proof.
  split; [vm_compute; reflexivity|].
  apply (retry_counters_in_range literal_parse one_retryable_failure "A" 1).
  vm_compute. reflexivity.
Defined.

Lemma responses_are_well_formed_witness :
  (500 = 200 /\ exists b, field "cached"
      (JObj [ ("error", JStr "Error procesando video después de 3 intentos: Timeout en descarga");
              ("videoId", JStr "A"); ("attempts", JNum 3) ]) = Some (JBool b)) \/
  500 = 400 \/ 500 = 408 \/ 500 = 409 \/
  (500 = 500 /\
   exists n, field "attempts"
      (JObj [ ("error", JStr "Error procesando video después de 3 intentos: Timeout en descarga");
              ("videoId", JStr "A"); ("attempts", JNum 3) ]) = Some (JNum n) /\
             1 <= n <= 3).
Proof.
  apply (responses_are_well_formed literal_parse three_requests_failing 2).
  apply list_elem_of_In. vm_compute.
  repeat (try (left; reflexivity); right).
Defined.

Lemma deadline_frees_the_id_not_the_slot_witness :
  running (deadline "A" 0 one_request_running) = running one_request_running /\
  currentProcessing (deadline "A" 0 one_request_running) = 1.
Proof.
  split; [|vm_compute; reflexivity].
  apply (deadline_frees_the_id_not_the_slot "A" 0 one_request_running).
  vm_compute. apply NoDup_singleton.
Defined.

Lemma failure_without_retry_is_answered_witness :
  currentProcessing
    (settle literal_parse 0 (env_processing_timeout "/tmp/A_0_a.mp4")
       one_request_running) = 1 - 1.
Proof.
  apply (failure_without_retry_is_answered literal_parse 0
           (env_processing_timeout "/tmp/A_0_a.mp4") one_request_running
           {| run_videoId := "A"; run_res := 0 |}
           "Procesamiento excedió el tiempo límite").
  - vm_compute. reflexivity.
  - vm_compute. reflexivity.
  - left. vm_compute. reflexivity.
  - vm_compute. reflexivity.
Defined.

Lemma run_resolves_iff_every_stage_succeeds_witness :
  settled (processVideo literal_parse "A" 0 (env_fresh "/tmp/A_0_a.mp4") false ∅)
    = Resolved tt.
Proof.
  apply (proj1 (run_resolves_iff_every_stage_succeeds literal_parse "A" 0
                  (env_fresh "/tmp/A_0_a.mp4") false ∅ eq_refl)).
  exists "/tmp/A_0_a.mp4". eexists.
  split; [reflexivity|]. split; [reflexivity|].
  split; [vm_compute; reflexivity|]. split; reflexivity.
Defined.

Lemma tier_errors_are_not_passed_on_witness :
  exists result,
    getVideoDescription literal_parse gemini_second_tier = Resolved result /\
    modelUsed result = "gemini-2.5-pro".
Proof.
  destruct (tier_errors_are_not_passed_on literal_parse gemini_second_tier
              (10 * 1024 * 1024)
              [ {| name := "gemini-2.5-flash"; maxSizeMB := 50 |};
                {| name := "gemini-2.5-pro"; maxSizeMB := 30 |} ]
              eq_refl eq_refl eq_refl eq_refl)
    as [(result & Hresult & _) | [Hrejected _]].
  - exists result. split; [exact Hresult|].
    vm_compute in Hresult. injection Hresult as <-. reflexivity.
  - vm_compute in Hrejected. discriminate.
Defined.

Lemma text_failure_ends_the_tiers_witness :
  getVideoDescription literal_parse gemini_blocked_answer
    = Rejected "Todos los modelos de Gemini fallaron".
Proof.
  apply (text_failure_ends_the_tiers literal_parse gemini_blocked_answer
           (10 * 1024 * 1024) []
           {| name := "gemini-2.5-flash"; maxSizeMB := 50 |}
           [ {| name := "gemini-2.5-pro"; maxSizeMB := 30 |} ]
           "Response was blocked due to SAFETY").
  - reflexivity.
  - reflexivity.
  - vm_compute. reflexivity.
  - reflexivity.
  - constructor.
  - reflexivity.
Defined.

Lemma oversized_file_is_not_requested_witness :
  Drive.calls (Drive.downloadVideoFromDrive join_plain "V" drive_oversized ∅)
    = [Drive.GetMetadata "V"].
Proof.
  apply (oversized_file_is_not_requested join_plain "V" drive_oversized ∅
           {| Drive.md_name := Some "film.mov";
              Drive.md_size := Some "209715200" |}).
  - reflexivity.
  - reflexivity.
  - vm_compute. reflexivity.
Defined.

Lemma unknown_size_is_requested_witness :
  Drive.GetMedia "V"
    ∈ Drive.calls (Drive.downloadVideoFromDrive join_plain "V" drive_unknown_size ∅).
Proof.
  apply (unknown_size_is_requested join_plain "V" drive_unknown_size ∅
           {| Drive.md_name := None; Drive.md_size := None |}).
  - reflexivity.
  - reflexivity.
  - left. reflexivity.
Defined.

Lemma failed_copy_is_cleaned_up_witness :
  let o := Drive.downloadVideoFromDrive join_plain "V" drive_broken_stream ∅ in
  Drive.result o = Rejected "read ECONNRESET" /\
  last (Drive.calls o) = Some (Drive.Cleanup "/tmp/V_1700000000000_clip.mp4").
Proof.
  destruct (failed_copy_is_cleaned_up join_plain "V" drive_broken_stream ∅
              {| Drive.md_name := Some "clip.mp4"; Drive.md_size := Some "2048" |}
              "read ECONNRESET")
    as (Hresult & Hlast & _).
  - reflexivity.
  - reflexivity.
  - vm_compute. discriminate.
  - reflexivity.
  - left. reflexivity.
  - split; [exact Hresult | exact Hlast].
Defined.

Lemma request_failures_stay_retryable_witness :
  exists text,
    Drive.result (Drive.downloadVideoFromDrive join_plain "V" drive_unreachable ∅)
      = Rejected text /\
    isRetryableError text = true.
Proof.
  apply (request_failures_stay_retryable join_plain "V" drive_unreachable ∅
           "connect ETIMEDOUT 142.250.0.1:443").
  - reflexivity.
  - left. reflexivity.
  - vm_compute. reflexivity.
Defined.

Lemma settled_run_leaves_the_queue_witness :
  currentProcessing (settle literal_parse 0 env_download_timeout one_request_running)
    = 1 - 1.
Proof.
  apply (settled_run_leaves_the_queue literal_parse 0 env_download_timeout
           one_request_running {| run_videoId := "A"; run_res := 0 |}).
  - vm_compute. apply NoDup_singleton.
  - vm_compute. reflexivity.
Defined.

Lemma admitted_request_is_queued_witness :
  log (add "A" 0 0 initial) = log initial.
Proof.
  apply (admitted_request_is_queued "A" 0 0 initial).
  - apply not_elem_of_empty.
  - intros item Hin. inversion Hin.
Defined.

Lemma response_object_answered_at_most_once_witness :
  (length (responses 0
             (exec literal_parse
                [ Fire 0; Settle 0 (env_fresh "/tmp/A_0_a.mp4"); SocketTimeout 0 ]
                one_request_running)) <= 1)%nat.
Proof.
  apply (response_object_answered_at_most_once literal_parse 0).
  - repeat constructor; discriminate.
  - vm_compute. lia.
Defined.

Lemma retry_branch_counts_and_waits_witness :
  retryAttempts (on_error "A" 0 "Timeout en descarga" one_request_running) !! "A"
    = Some (0 + 1).
Proof.
  apply (retry_branch_counts_and_waits "A" 0 "Timeout en descarga" one_request_running).
  - vm_compute. split; [discriminate | reflexivity].
  - vm_compute. reflexivity.
Defined.
